(** * Reference-config loader (src/util-reference-config.c)

    A shallow embedding of the reference.config parser of the detection
    engine: the line classifier, the PCRE directive matcher, the entry
    constructor, the hash and compare callbacks, the hash table they are
    plugged into, the [fgets] driven loader and the lookup entry point,
    followed by the properties established about them. *)

From Stdlib Require Import ZArith Ascii String List Bool Lia.
From stdpp Require Import gmap strings.

Local Open Scope Z_scope.

(** ** C characters and strings

    A C string is the list of its bytes up to, and excluding, the
    terminating NUL.  A buffer filled by [fgets] may hold NUL bytes read
    from the file; [c_str] is what the [char *] functions see of it. *)

Abbreviation cstring := (list ascii) (only parsing).

Definition code (c : ascii) : Z := Z.of_N (N_of_ascii c).
Definition chr (z : Z) : ascii := ascii_of_N (Z.to_N z).

Definition NUL : ascii := chr 0.
Definition LF : ascii := chr 10.
Definition HASH : ascii := chr 35.

Definition str (s : string) : cstring := list_ascii_of_string s.

Definition is_nul (c : ascii) : bool := code c =? 0.

Fixpoint c_str (buf : list ascii) : cstring :=
  match buf with
  | [] => []
  | c :: buf' => if is_nul c then [] else c :: c_str buf'
  end.

(** [isspace] and [tolower] of <ctype.h> in the C locale, on an
    [unsigned char] argument. *)
Definition isspace (c : ascii) : bool :=
  ((9 <=? code c) && (code c <=? 13)) || (code c =? 32).

Definition isupper (c : ascii) : bool := (65 <=? code c) && (code c <=? 90).

Definition tolower (c : ascii) : ascii :=
  if isupper c then chr (code c + 32) else c.

(** ** PCRE

    The part of PCRE that [SC_RCONF_REGEX] exercises, compiled with
    [opts = 0] by a library built with its defaults (the newline is LF):
    [^] is the start of the subject, [$] is the end of the
    subject or the position before a final newline, [.] is any byte but
    the newline, quantifiers are greedy and give characters back one at a
    time, alternatives are explored depth first and the first success is
    the result.

    [\s] is space, HT, LF, FF and CR; PCRE releases from 8.34 on add VT.
    The flag [vt] says which library the program is linked against. *)

Definition pcre_space (vt : bool) (c : ascii) : bool :=
  (code c =? 32) || (code c =? 9) || (code c =? 10) || (code c =? 12)
  || (code c =? 13) || (vt && (code c =? 11)).

(** [[a-zA-Z]] *)
Definition pcre_alpha (c : ascii) : bool :=
  ((97 <=? code c) && (code c <=? 122)) || ((65 <=? code c) && (code c <=? 90)).

(** [[a-zA-Z0-9-_]]: the hyphen that follows the range [0-9] is a literal. *)
Definition pcre_namechar (c : ascii) : bool :=
  pcre_alpha c || ((48 <=? code c) && (code c <=? 57))
  || (code c =? 45) || (code c =? 95).

(** [.] without PCRE_DOTALL *)
Definition pcre_dot (c : ascii) : bool := negb (code c =? 10).

Inductive node : Type :=
| NBol                              (* ^ *)
| NEol                              (* $ *)
| NLit (c : ascii)                  (* a literal character *)
| NSet (p : ascii -> bool)          (* one character of a class *)
| NStar (p : ascii -> bool)         (* class*, greedy *)
| NPlus (p : ascii -> bool)         (* class+, greedy *)
| NOpen (n : nat)                   (* ( of group n *)
| NClose (n : nat).                 (* ) of group n *)

(** A compiled pattern, the [pcre *] of the library. *)
Definition pcre := list node.

(** The offsets vector [int ov[]] handed to [pcre_exec]. *)
Definition ovector := nat -> nat.

Definition ov_set (ov : ovector) (i v : nat) : ovector :=
  fun j => if Nat.eqb j i then v else ov j.

Definition ov_init : ovector := fun _ => 0%nat.

(** Greedy repetition of a character class: consume while the class
    holds, then run the continuation; on failure give back one character
    and retry. *)
Fixpoint pcre_star {R : Type} (p : ascii -> bool)
    (k : cstring -> nat -> option R) (s : cstring) (pos : nat) : option R :=
  match s with
  | c :: s' =>
      if p c then
        match pcre_star p k s' (S pos) with
        | Some r => Some r
        | None => k s pos
        end
      else k s pos
  | [] => k [] pos
  end.

(** [pcre_match re s pos ov]: match [re] against the rest [s] of the
    subject, which starts at offset [pos]. *)
Fixpoint pcre_match (re : pcre) : cstring -> nat -> ovector -> option ovector :=
  match re with
  | [] => fun _ pos ov => Some (ov_set ov 1 pos)
  | NBol :: re' => fun s pos ov =>
      if Nat.eqb pos 0 then pcre_match re' s pos ov else None
  | NEol :: re' => fun s pos ov =>
      match s with
      | [] => pcre_match re' s pos ov
      | [c] => if code c =? 10 then pcre_match re' s pos ov else None
      | _ => None
      end
  | NLit c :: re' => fun s pos ov =>
      match s with
      | x :: s' => if Ascii.eqb x c then pcre_match re' s' (S pos) ov else None
      | [] => None
      end
  | NSet p :: re' => fun s pos ov =>
      match s with
      | x :: s' => if p x then pcre_match re' s' (S pos) ov else None
      | [] => None
      end
  | NStar p :: re' => fun s pos ov =>
      pcre_star p (fun s' pos' => pcre_match re' s' pos' ov) s pos
  | NPlus p :: re' => fun s pos ov =>
      match s with
      | x :: s' =>
          if p x
          then pcre_star p (fun s' pos' => pcre_match re' s' pos' ov) s' (S pos)
          else None
      | [] => None
      end
  | NOpen n :: re' => fun s pos ov =>
      pcre_match re' s pos (ov_set ov (2 * n) pos)
  | NClose n :: re' => fun s pos ov =>
      pcre_match re' s pos (ov_set ov (2 * n + 1) pos)
  end.

(** [pcre_exec]: the match is attempted at every start offset in turn,
    from [start] on; [ov[0]] receives the offset of the first success. *)
Fixpoint pcre_exec_from (re : pcre) (s : cstring) (start : nat) : option ovector :=
  match pcre_match re s start (ov_set ov_init 0 start) with
  | Some ov => Some ov
  | None =>
      match s with
      | [] => None
      | _ :: s' => pcre_exec_from re s' (S start)
      end
  end.

Definition pcre_exec (re : pcre) (subject : cstring) : option ovector :=
  pcre_exec_from re subject 0.

(** [pcre_get_substring(subject, ov, _, n, &out)] *)
Definition pcre_get_substring (subject : cstring) (ov : ovector) (n : nat) : cstring :=
  firstn (ov (2 * n + 1) - ov (2 * n))%nat (skipn (ov (2 * n)%nat) subject).

Definition lit (s : string) : pcre := List.map NLit (str s).

(** [SC_RCONF_REGEX], item by item (blanks added between the items):
<<
    ^ \s* config \s+ reference \s* : \s* ( [a-zA-Z] [a-zA-Z0-9-_]* ) \s+ ( .+ ) \s* $
>> *)
Definition SC_RCONF_REGEX (vt : bool) : pcre :=
  [NBol; NStar (pcre_space vt)] ++ lit "config" ++
  [NPlus (pcre_space vt)] ++ lit "reference" ++
  [NStar (pcre_space vt); NLit ":"; NStar (pcre_space vt);
   NOpen 1; NSet pcre_alpha; NStar pcre_namechar; NClose 1;
   NPlus (pcre_space vt);
   NOpen 2; NPlus pcre_dot; NClose 2;
   NStar (pcre_space vt); NEol].

(** The two substrings [SCRConfAddReference] retrieves after a successful
    [pcre_exec]: the system name and the url. *)
Definition match_directive (vt : bool) (rawstr : cstring) : option (cstring * cstring) :=
  match pcre_exec (SC_RCONF_REGEX vt) rawstr with
  | None => None
  | Some ov => Some (pcre_get_substring rawstr ov 1, pcre_get_substring rawstr ov 2)
  end.

(** ** The line classifier *)

(** [SCRConfIsLineBlankOrComment]: 1 for a comment or blank line, 0
    otherwise. *)
Fixpoint SCRConfIsLineBlankOrComment (line : cstring) : Z :=
  match line with
  | [] => 1
  | c :: line' =>
      if code c =? 35 then 1
      else if negb (isspace c) then 0
      else SCRConfIsLineBlankOrComment line'
  end.

(** ** Entries

    [SCRConfReference] of util-reference-config.h: two [char *] fields.
    Every instance is built by [SCRConfAllocSCRConfReference], which never
    leaves [system] NULL, so [system] is a plain string here and the
    [system == NULL] tests of the compare callback have no counterpart;
    [url] stays nullable. *)
Record SCRConfReference : Type := mkRef {
  system : cstring;
  url : option cstring
}.

(** [SCRConfStringToLowercase] *)
Definition SCRConfStringToLowercase (s : cstring) : cstring := List.map tolower s.

(** Heap addresses; a pointer is an [option loc], [None] being NULL. *)
Abbreviation loc := nat (only parsing).
Abbreviation heap_t := (gmap nat SCRConfReference) (only parsing).

(** [SCMalloc] hands out an address that is not in use; allocation is
    taken to succeed. *)
Definition SCMalloc (h : heap_t) : loc := fresh (dom h).

(** [SCRConfAllocSCRConfReference] *)
Definition SCRConfAllocSCRConfReference (sys : option cstring) (u : option cstring)
    (h : heap_t) : option loc * heap_t :=
  match sys with
  | None => (None, h)
  | Some s =>
      let ref := SCMalloc h in
      (Some ref, <[ref := mkRef (SCRConfStringToLowercase s) u]> h)
  end.

(** [SCRConfDeAllocSCRConfReference] *)
Definition SCRConfDeAllocSCRConfReference (ref : option loc) (h : heap_t) : heap_t :=
  match ref with
  | None => h
  | Some l => delete l h
  end.

(** ** The hash and compare callbacks *)

Definition uint32_max : Z := 2 ^ 32.

(** The [for] loop of [SCRConfReferenceHashFunc]: a [uint32_t] sum. *)
Fixpoint hash_sum (s : cstring) (hash : Z) : Z :=
  match s with
  | [] => hash
  | c :: s' => hash_sum s' ((hash + code (tolower c)) mod uint32_max)
  end.

(** [SCRConfReferenceHashFunc], [array_size] being [ht->array_size]. *)
Definition SCRConfReferenceHashFunc (array_size : Z) (data : SCRConfReference) : Z :=
  (hash_sum (system data) 0) mod array_size.

(** [memcmp] on the first [n] bytes of two strings at least that long. *)
Fixpoint memcmp (a b : cstring) (n : nat) : Z :=
  match n, a, b with
  | S n', x :: a', y :: b' =>
      if code x =? code y then memcmp a' b' n' else code x - code y
  | _, _, _ => 0
  end.

(** [SCRConfReferenceHashCompareFunc]; [None] is a NULL [data] pointer. *)
Definition SCRConfReferenceHashCompareFunc (data1 data2 : option SCRConfReference) : Z :=
  match data1, data2 with
  | Some ref1, Some ref2 =>
      let len1 := length (system ref1) in
      let len2 := length (system ref2) in
      if Nat.eqb len1 len2 && (memcmp (system ref1) (system ref2) len1 =? 0)
      then 1 else 0
  | _, _ => 0
  end.

(** ** The hash table *)

(** Modelled from the spec: the generic hash table of util-hash.c
    ([HashTable], [HashTableInit], [HashTableLookup], [HashTableAdd]) is
    not among the sources.  It is the Reference Store of the
    specification: an associative container with insert and lookup, a
    [count] of the stored entries, and no ordering promise.  The table
    stores pointers, in [array_size] buckets. *)
Record HashTable : Type := mkHT {
  array_size : Z;
  array : list (list loc);
  count : Z
}.

(** Modelled from the spec: [HashTableInit], absent from the sources; the
    store is created empty. *)
Definition HashTableInit (size : Z) : HashTable :=
  mkHT size (replicate (Z.to_nat size) []) 0.

(** Modelled from the spec: the walk of [HashTableLookup], absent from
    the sources, along one bucket; the compare callback reads the stored
    entry and the probe from the heap and decides. *)
Fixpoint bucket_find (h : heap_t) (chain : list loc) (data : loc) : option loc :=
  match chain with
  | [] => None
  | p :: chain' =>
      if SCRConfReferenceHashCompareFunc (h !! p) (h !! data) =? 1
      then Some p
      else bucket_find h chain' data
  end.

(** Modelled from the spec: [HashTableLookup], absent from the sources;
    lookup by key, in the bucket the hash callback names for the probe,
    which is a live object; NULL for a NULL table. *)
Definition HashTableLookup (ht : option HashTable) (h : heap_t) (data : loc)
    : option loc :=
  match ht, h !! data with
  | Some t, Some ref =>
      let hash := SCRConfReferenceHashFunc (array_size t) ref in
      if array_size t <=? hash then None
      else match array t !! Z.to_nat hash with
           | None => None
           | Some chain => bucket_find h chain data
           end
  | _, _ => None
  end.

(** Modelled from the spec: [HashTableAdd], absent from the sources; the
    pointer goes to the front of the bucket the hash callback names and
    [count] grows by one; -1 and no change when there is no such
    bucket. *)
Definition HashTableAdd (ht : option HashTable) (h : heap_t) (data : loc)
    : Z * option HashTable :=
  match ht, h !! data with
  | Some t, Some ref =>
      let hash := SCRConfReferenceHashFunc (array_size t) ref in
      if array_size t <=? hash then (-1, ht)
      else match array t !! Z.to_nat hash with
           | None => (-1, ht)
           | Some chain =>
               (0, Some (mkHT (array_size t)
                              (<[Z.to_nat hash := data :: chain]> (array t))
                              (count t + 1)))
           end
  | _, _ => (-1, ht)
  end.

(** ** Program state and outcomes

    What the functions of the file read and write: the heap of entries,
    the [reference_conf_ht] field of the detection engine context, and the
    file-scope statics [fd] (the unread rest of the stream, [None] for
    NULL) and [regex]. *)
Record state : Type := mkState {
  heap : heap_t;
  reference_conf_ht : option HashTable;
  fd : option (list ascii);
  regex : option pcre
}.

(** A call returns a value, leaves through [exit], or runs into a NULL
    dereference. *)
Inductive outcome (A : Type) : Type :=
| Returns (a : A)
| Exits (status : Z)
| Faults.
Arguments Returns {A} a.
Arguments Exits {A} status.
Arguments Faults {A}.

Definition bind {A B : Type} (m : outcome A) (f : A -> outcome B) : outcome B :=
  match m with
  | Returns a => f a
  | Exits n => Exits n
  | Faults => Faults
  end.

Notation "x <- m ;; f" := (bind m (fun x => f))
  (at level 100, m at next level, right associativity).

Definition EXIT_FAILURE : Z := 1.

(** What the process finds around it: whether the table can be
    allocated, the contents of the file behind the configured path when
    it can be opened, whether PCRE compiles and studies the pattern, and
    which [\s] the linked PCRE has. *)
Record environment : Type := mkEnv {
  hash_table_init_ok : bool;
  fopen_result : option (list ascii);
  pcre_compile_ok : bool;
  pcre_study_ok : bool;
  pcre_vt : bool
}.

Definition set_heap (st : state) (h : heap_t) : state :=
  mkState h (reference_conf_ht st) (fd st) (regex st).
Definition set_ht (st : state) (ht : option HashTable) : state :=
  mkState (heap st) ht (fd st) (regex st).
Definition set_fd (st : state) (f : option (list ascii)) : state :=
  mkState (heap st) (reference_conf_ht st) f (regex st).
Definition set_regex (st : state) (r : option pcre) : state :=
  mkState (heap st) (reference_conf_ht st) (fd st) r.

(** The [error:] label of [SCRConfInitContextAndLocalResources]; the
    table it frees has no entry yet. *)
Definition init_error (st : state) : Z * state :=
  (-1, mkState (heap st) None None None).

(** [SCRConfInitContextAndLocalResources] *)
Definition SCRConfInitContextAndLocalResources (env : environment) (st : state)
    : Z * state :=
  let st := set_ht st (if hash_table_init_ok env
                       then Some (HashTableInit 128) else None) in
  match reference_conf_ht st with
  | None => init_error st
  | Some _ =>
      let opened :=
        match fd st with
        | None => set_fd st (fopen_result env)
        | Some _ => st
        end in
      match fd opened with
      | None => init_error opened
      | Some _ =>
          let st := set_regex opened
                      (if pcre_compile_ok env
                       then Some (SC_RCONF_REGEX (pcre_vt env)) else None) in
          match regex st with
          | None => init_error st
          | Some _ => if pcre_study_ok env then (0, st) else init_error st
          end
      end
  end.

(** [SCRConfDeInitLocalResources] *)
Definition SCRConfDeInitLocalResources (st : state) : state :=
  set_regex (set_fd st None) None.

(** [SCRConfAddReference]; a NULL [regex] makes [pcre_exec] return an
    error code. *)
Definition SCRConfAddReference (rawstr : cstring) (st : state) : outcome (Z * state) :=
  match regex st with
  | None => Returns (-1, st)
  | Some re =>
      match pcre_exec re rawstr with
      | None => Returns (-1, st)
      | Some ov =>
          let sys := pcre_get_substring rawstr ov 1 in
          let u := pcre_get_substring rawstr ov 2 in
          let '(ref_new, h) :=
            SCRConfAllocSCRConfReference (Some sys) (Some u) (heap st) in
          match ref_new with
          | None => Faults
          | Some p =>
              match HashTableLookup (reference_conf_ht st) h p with
              | None =>
                  let '(_, ht) := HashTableAdd (reference_conf_ht st) h p in
                  Returns (0, set_ht (set_heap st h) ht)
              | Some _ =>
                  Returns (0, set_heap st (SCRConfDeAllocSCRConfReference ref_new h))
              end
          end
      end
  end.

(** [fgets (line, size, fd)]: at most [size - 1] bytes, up to and
    including the first newline.  [fgets_buf room s] is the buffer and the
    unread rest when [room] bytes may still be stored. *)
Fixpoint fgets_buf (room : nat) (s : list ascii) : list ascii * list ascii :=
  match room, s with
  | S room', c :: s' =>
      if code c =? 10 then ([c], s')
      else let '(l, r) := fgets_buf room' s' in (c :: l, r)
  | _, _ => ([], s)
  end.

Definition fgets (size : nat) (s : list ascii) : option (list ascii * list ascii) :=
  match s with
  | [] => None
  | _ => Some (fgets_buf (size - 1) s)
  end.

(** One turn of the [while] loop of [SCRConfParseFile] on the buffer
    [line] that [fgets] filled. *)
Definition parse_line (line : list ascii) (st : state) : outcome state :=
  if SCRConfIsLineBlankOrComment (c_str line) =? 1 then Returns st
  else r <- SCRConfAddReference (c_str line) st ;; Returns (snd r).

(** The [while] loop of [SCRConfParseFile].  Each turn takes at least one
    byte off the stream, so [fuel] turns suffice when [fuel] is the length
    of the stream; the counter [i] of the source is never read. *)
Fixpoint parse_loop (fuel : nat) (st : state) : outcome state :=
  match fd st with
  | None => Faults
  | Some s =>
      match fgets 1024 s with
      | None => Returns st
      | Some (line, s') =>
          match fuel with
          | O => Faults
          | S fuel' =>
              st' <- parse_line line (set_fd st (Some s')) ;;
              parse_loop fuel' st'
          end
      end
  end.

(** [SCRConfParseFile] *)
Definition SCRConfParseFile (st : state) : outcome state :=
  parse_loop (length (default [] (fd st))) st.

(** [SCRConfLoadReferenceConfigFile] *)
Definition SCRConfLoadReferenceConfigFile (env : environment) (st : state)
    : outcome (Z * state) :=
  let '(r, st) := SCRConfInitContextAndLocalResources env st in
  if r =? -1 then Exits EXIT_FAILURE
  else
    st <- SCRConfParseFile st ;;
    Returns (0, SCRConfDeInitLocalResources st).

(** [SCRConfGetReference]; [None] is a NULL [rconf_name]. *)
Definition SCRConfGetReference (rconf_name : option cstring) (st : state)
    : outcome (option loc * state) :=
  let '(ref_conf, h) :=
    SCRConfAllocSCRConfReference rconf_name None (heap st) in
  match ref_conf with
  | None => Exits EXIT_FAILURE
  | Some p =>
      let lookup_ref_conf := HashTableLookup (reference_conf_ht st) h p in
      Returns (lookup_ref_conf,
               set_heap st (SCRConfDeAllocSCRConfReference ref_conf h))
  end.

(** * Vocabulary of the statements *)

(** ** Strings *)

(** Every character of [l] is in the class [p]. *)
Definition holds (p : ascii -> bool) (l : cstring) : Prop :=
  Forall (fun c => p c = true) l.

(** [rest] does not start with a character of the class [p]. *)
Definition stops (p : ascii -> bool) (rest : cstring) : Prop :=
  match rest with
  | [] => True
  | c :: _ => p c = false
  end.

Definition is_newline (c : ascii) : bool := code c =? 10.

(** Every character is whitespace for [isspace]. *)
Definition all_space (l : cstring) : Prop := Forall (fun c => isspace c = true) l.

(** No character is the newline. *)
Definition no_newline (l : list ascii) : Prop :=
  Forall (fun c => (code c =? 10) = false) l.

(** No character is NUL. *)
Definition no_nul (l : list ascii) : Prop :=
  Forall (fun c => is_nul c = false) l.

(** The two keys are equal up to ASCII case. *)
Definition case_insensitively_equal (a b : cstring) : Prop :=
  SCRConfStringToLowercase a = SCRConfStringToLowercase b.

(** ** Parses

    What a match of a pattern looks like, without the search for it.
    [node_takes n done taken rest ov ov1]: the item [n] consumes [taken],
    [done] having been consumed before it and [rest] following, and turns
    the offsets [ov] into [ov1]. *)
Definition node_takes (n : node) (done taken rest : cstring) (ov ov1 : ovector) : Prop :=
  match n with
  | NBol => taken = [] /\ done = [] /\ ov1 = ov
  | NEol => taken = [] /\ (rest = [] \/ rest = [LF]) /\ ov1 = ov
  | NLit c => taken = [c] /\ ov1 = ov
  | NSet p => (exists c, taken = [c] /\ p c = true) /\ ov1 = ov
  | NStar p => holds p taken /\ ov1 = ov
  | NPlus p => taken <> [] /\ holds p taken /\ ov1 = ov
  | NOpen g => taken = [] /\ ov1 = ov_set ov (2 * g) (length done)
  | NClose g => taken = [] /\ ov1 = ov_set ov (2 * g + 1) (length done)
  end.

(** [parses re done s ov ov']: [s], which follows [done] in the
    subject, splits into what the items of [re] take, one after the
    other, and what is left. *)
Fixpoint parses (re : pcre) (done s : cstring) (ov ov' : ovector) : Prop :=
  match re with
  | [] => ov' = ov_set ov 1 (length done)
  | n :: re' =>
      exists taken rest ov1,
        s = taken ++ rest /\ node_takes n done taken rest ov ov1 /\
        parses re' (done ++ taken) rest ov1 ov'
  end.

(** No match of [re] starts with a character of the class [p]. *)
Definition cannot_start (p : ascii -> bool) (re : pcre) : Prop :=
  forall c s pos ov, p c = true -> pcre_match re (c :: s) pos ov = None.

(** ** The grammar of a directive *)

(** What comes before the name: whitespace, [config], whitespace,
    [reference], whitespace, a colon, whitespace. *)
Definition directive_head (vt : bool) (head : cstring) : Prop :=
  exists pre ws1 ws2 ws3,
    head = pre ++ str "config" ++ ws1 ++ str "reference" ++ ws2 ++ str ":" ++ ws3 /\
    holds (pcre_space vt) pre /\
    ws1 <> [] /\ holds (pcre_space vt) ws1 /\
    holds (pcre_space vt) ws2 /\ holds (pcre_space vt) ws3.

(** A letter, then letters, digits, hyphens and underscores. *)
Definition valid_name (name : cstring) : Prop :=
  exists a rest, name = a :: rest /\ pcre_alpha a = true /\ holds pcre_namechar rest.

(** Not empty, no newline, and the first character is not whitespace. *)
Definition valid_value (vt : bool) (value : cstring) : Prop :=
  (exists v rest, value = v :: rest /\ pcre_space vt v = false) /\
  holds pcre_dot value.

(** The pattern from the first capture on. *)
Definition name_regex (vt : bool) : pcre :=
  [NOpen 1; NSet pcre_alpha; NStar pcre_namechar; NClose 1;
   NPlus (pcre_space vt);
   NOpen 2; NPlus pcre_dot; NClose 2;
   NStar (pcre_space vt); NEol].

(** [line], without its newline, is a directive for [name] and [value]:
    the head, the name, whitespace, and the value, which starts with a
    character that is not whitespace and runs to the end of the line. *)
Definition well_formed_line (vt : bool) (line name value : cstring) : Prop :=
  (exists head sep,
     line = head ++ name ++ sep ++ value /\
     directive_head vt head /\ valid_name name /\
     sep <> [] /\ holds (pcre_space vt) sep /\ valid_value vt value) /\
  no_newline line /\ no_nul line.

(** A directive line of a source, with the name and value it defines. *)
Record directive : Type := mkDirective {
  d_line : list ascii;
  d_name : list ascii;
  d_value : list ascii
}.

(** The line is a directive for its name and value, and fits the buffer
    of [SCRConfParseFile] with its newline. *)
Definition directive_ok (vt : bool) (d : directive) : Prop :=
  well_formed_line vt (d_line d) (d_name d) (d_value d) /\
  (length (d_line d) <= 1022)%nat.

(** The directive [config reference: name value], single blanks. *)
Definition plain_directive (name value : string) : directive :=
  mkDirective (str "config reference: " ++ str name ++ str " " ++ str value)
              (str name) (str value).

(** ** Sources *)

(** The stream made of the given lines, each closed by a newline. *)
Definition stream_of (lines : list (list ascii)) : list ascii :=
  concat (List.map (fun l => l ++ [LF]) lines).

(** The buffers [fgets] fills from [stream_of lines]. *)
Definition buffers_of (lines : list (list ascii)) : list (list ascii) :=
  List.map (fun l => l ++ [LF]) lines.

(** A line that fits the buffer of [SCRConfParseFile] with its newline. *)
Definition line_ok (body : list ascii) : Prop :=
  no_newline body /\ (length body <= 1022)%nat.

Definition source_of (lines : list string) : list ascii :=
  stream_of (List.map str lines).

(** The buffers of [SCRConfGenerateValidDummyReferenceConfigFD01],
    [SCRConfGenerateInValidDummyReferenceConfigFD02] and
    [SCRConfGenerateInValidDummyReferenceConfigFD03]. *)
Definition FD01 : list ascii := source_of
  ["config reference: one http://www.one.com";
   "config reference: two http://www.two.com";
   "config reference: three http://www.three.com";
   "config reference: one http://www.one.com";
   "config reference: three http://www.three.com"]%string.

Definition FD02 : list ascii := source_of
  ["config reference: one http://www.one.com";
   "config_ reference: two http://www.two.com";
   "config reference_: three http://www.three.com";
   "config reference: four";
   "config reference five http://www.five.com"]%string.

Definition FD03 : list ascii := source_of
  ["config reference one http://www.one.com";
   "config_ reference: two http://www.two.com";
   "config reference_: three http://www.three.com";
   "config reference: four"]%string.

(** One valid line and one invalid line of each kind: no colon, no
    value, wrong keyword. *)
Definition scenario_B : list ascii := source_of
  ["config reference: one http://www.one.com";
   "config reference five http://www.five.com";
   "config reference: four";
   "config_ reference: two http://www.two.com"]%string.

(** ** Runs *)

(** The state a test starts from: nothing allocated, no table, [fd] set
    by the test fixture. *)
Definition initial_state (stream : option (list ascii)) : state :=
  mkState ∅ None stream None.

(** Everything is available; the file is not needed when [fd] is set. *)
Definition default_env (vt : bool) : environment := mkEnv true None true true vt.

(** Table and pattern are available. *)
Definition env_ok (env : environment) : Prop :=
  hash_table_init_ok env = true /\ pcre_compile_ok env = true /\
  pcre_study_ok env = true.

(** Where the loader reads from: the preset [fd], else the opened file. *)
Definition source_stream (env : environment) (st : state) : option (list ascii) :=
  match fd st with
  | Some s => Some s
  | None => fopen_result env
  end.

(** The state a load of [stream] leaves behind. *)
Definition store_after (vt : bool) (stream : list ascii) : state :=
  match SCRConfLoadReferenceConfigFile (default_env vt)
          (initial_state (Some stream)) with
  | Returns (_, st) => st
  | _ => initial_state None
  end.

(** The object a pointer returned by [SCRConfAllocSCRConfReference]
    points to. *)
Definition allocated (r : option loc * heap_t) : option SCRConfReference :=
  match fst r with
  | None => None
  | Some p => snd r !! p
  end.

(** The [count] field of the table of a state, when there is a table. *)
Definition table_count (st : state) : option Z :=
  match reference_conf_ht st with
  | Some t => Some (count t)
  | None => None
  end.

(** [p] is in bucket [i] of the table. *)
Definition in_bucket (t : HashTable) (i : nat) (p : loc) : Prop :=
  exists chain, array t !! i = Some chain /\ p ∈ chain.

(** The table of [st] holds the pointer [p], which points to [ref]. *)
Definition stored (st : state) (p : loc) (ref : SCRConfReference) : Prop :=
  exists t i,
    reference_conf_ht st = Some t /\ in_bucket t i p /\ heap st !! p = Some ref.

(** The lookup of [q] returns a stored entry whose url is [v]. *)
Definition lookup_gives (st : state) (q v : cstring) : Prop :=
  exists p ref,
    SCRConfGetReference (Some q) st = Returns (Some p, st) /\
    stored st p ref /\ url ref = Some v.

(** The lookup of [q] returns NULL. *)
Definition lookup_fails (st : state) (q : cstring) : Prop :=
  SCRConfGetReference (Some q) st = Returns (None, st).

(** ** The store as a finite map

    The Reference Store of the specification: canonical key to value,
    insert-if-absent. *)
Abbreviation store := (gmap (list ascii) (list ascii)) (only parsing).

Definition insert_if_absent (k v : cstring) (m : store) : store :=
  match m !! k with
  | Some _ => m
  | None => <[k := v]> m
  end.

(** The key and value a buffer contributes, if any. *)
Definition directive_of (vt : bool) (line : list ascii) : option (cstring * cstring) :=
  match match_directive vt (c_str line) with
  | Some (name, value) => Some (SCRConfStringToLowercase name, value)
  | None => None
  end.

Definition store_step (vt : bool) (m : store) (line : list ascii) : store :=
  match directive_of vt line with
  | Some (k, v) => insert_if_absent k v m
  | None => m
  end.

(** The map a load builds from the buffers it reads. *)
Definition load_model (vt : bool) (lines : list (list ascii)) : store :=
  fold_left (store_step vt) lines ∅.

(** No buffer of [bufs] defines the key [k]. *)
Definition key_absent (vt : bool) (k : cstring) (bufs : list (list ascii)) : Prop :=
  Forall (fun b => forall k' v', directive_of vt b = Some (k', v') -> k' <> k) bufs.

(** The bucket of a key in the table of 128 buckets. *)
Definition hash_of (k : cstring) : nat :=
  Z.to_nat (SCRConfReferenceHashFunc 128 (mkRef k None)).

(** The table and heap of [st] hold exactly the bindings of [m]: one
    entry per key, in the bucket of its key, and [count] of them. *)
Definition represents (st : state) (m : store) : Prop :=
  exists t,
    reference_conf_ht st = Some t /\
    array_size t = 128 /\ length (array t) = 128%nat /\
    count t = Z.of_nat (size m) /\
    (forall i p, in_bucket t i p ->
       exists k v, heap st !! p = Some (mkRef k (Some v)) /\
                   hash_of k = i /\ m !! k = Some v) /\
    (forall k v, m !! k = Some v ->
       exists p, in_bucket t (hash_of k) p /\
                 heap st !! p = Some (mkRef k (Some v))) /\
    (forall i j p q r1 r2,
       in_bucket t i p -> in_bucket t j q ->
       heap st !! p = Some r1 -> heap st !! q = Some r2 ->
       system r1 = system r2 -> p = q).

(** ** A property as the specification words it *)

(** C1 as worded: whatever line of the source one takes, the lookup of
    its name gives its value. *)
Definition every_line_value_is_returned : Prop :=
  forall (env : environment) (st : state) (ds : list directive) (d : directive)
         (q : list ascii),
    env_ok env ->
    Forall (directive_ok (pcre_vt env)) ds ->
    source_stream env st = Some (stream_of (List.map d_line ds)) ->
    d ∈ ds ->
    case_insensitively_equal q (d_name d) ->
    exists st',
      SCRConfLoadReferenceConfigFile env st = Returns (0, st') /\
      lookup_gives st' q (d_value d).

(** * Tear-down *)

(** [SCRConfReferenceHashFree], the free callback of the table. *)
Definition SCRConfReferenceHashFree (data : option loc) (h : heap_t) : heap_t :=
  SCRConfDeAllocSCRConfReference data h.

(** Modelled from the spec: [HashTableFree] of util-hash.c, absent from
    the sources; the store owns the entries it contains, and destroying
    it hands each of them to the free callback. *)
Definition HashTableFree (t : HashTable) (h : heap_t) : heap_t :=
  fold_left (fun h' p => SCRConfReferenceHashFree (Some p) h') (concat (array t)) h.

(** [SCRConfDeInitContext] *)
Definition SCRConfDeInitContext (st : state) : state :=
  match reference_conf_ht st with
  | Some t => set_ht (set_heap st (HashTableFree t (heap st))) None
  | None => set_ht st None
  end.

(** ** Vocabulary of the further statements *)

(** The heap of [st] is [h0], untouched, and beside it the entries that
    the table of [st] holds, and nothing else. *)
Definition owns (h0 : heap_t) (st : state) : Prop :=
  exists t,
    reference_conf_ht st = Some t /\
    array_size t = 128 /\ length (array t) = 128%nat /\
    (forall p ref, h0 !! p = Some ref -> heap st !! p = Some ref) /\
    (forall i p, in_bucket t i p -> h0 !! p = None /\ is_Some (heap st !! p)) /\
    (forall p, is_Some (heap st !! p) ->
       is_Some (h0 !! p) \/ exists i, in_bucket t i p).

(** ** Lines longer than the buffer *)

(** A well-formed directive line of 1032 bytes: its value runs past the
    1023 bytes that one [fgets] of [SCRConfParseFile] reads. *)
Definition long_directive : directive :=
  mkDirective (str "config reference: one " ++ repeat "a"%char 1010)
              (str "one") (repeat "a"%char 1010).

(** A line that starts with 1023 number signs and goes on with the text
    of a directive. *)
Definition long_comment : list ascii :=
  repeat "#"%char 1023 ++ str "config reference: two http://y".

(** * Properties *)

(** ** Characters *)

Lemma code_inj (c d : ascii) : code c = code d -> c = d.
Proof.
  unfold code. intros H. apply N2Z.inj in H.
  rewrite <- (ascii_N_embedding c), <- (ascii_N_embedding d). now rewrite H.
Qed.

Lemma code_eqb_eq (c : ascii) (z : Z) : (code c =? z) = true -> 0 <= z < 256 -> c = chr z.
Proof.
  intros H Hz. apply Z.eqb_eq in H. apply code_inj. rewrite H.
  unfold code, chr. rewrite N_ascii_embedding; lia.
Qed.

Ltac ascii_cases c := destruct c as [[] [] [] [] [] [] [] []].

Lemma space_not_alpha (vt : bool) (c : ascii) :
  pcre_space vt c = true -> pcre_alpha c = false.
Proof. destruct vt; ascii_cases c; vm_compute; congruence. Qed.

Lemma namechar_not_space (vt : bool) (c : ascii) :
  pcre_namechar c = true -> pcre_space vt c = false.
Proof. destruct vt; ascii_cases c; vm_compute; congruence. Qed.

Lemma space_isspace (vt : bool) (c : ascii) :
  pcre_space vt c = true -> isspace c = true.
Proof. destruct vt; ascii_cases c; vm_compute; congruence. Qed.

(** ** Lists *)

Lemma app_nil_len (done : cstring) : length (done ++ []) = length done.
Proof. now rewrite app_nil_r. Qed.

Lemma substring_at (d n r : cstring) :
  firstn (length (d ++ n) - length d) (skipn (length d) (d ++ n ++ r)) = n.
Proof.
  rewrite drop_app_length, length_app.
  replace (length d + length n - length d)%nat with (length n) by lia.
  apply take_app_length.
Qed.

Lemma substring_between (s d1 d2 d n r : cstring) :
  d1 = d -> d2 = d ++ n -> s = d ++ n ++ r ->
  firstn (length d2 - length d1) (skipn (length d1) s) = n.
Proof. intros -> -> ->. apply substring_at. Qed.

Lemma substring_len (d n r : cstring) (a b : nat) :
  a = length d -> b = (length d + length n)%nat ->
  firstn (b - a) (skipn a (d ++ n ++ r)) = n.
Proof.
  intros -> ->. rewrite <- length_app. apply substring_at.
Qed.

Ltac norm_app :=
  unfold str; simpl; repeat (progress (rewrite <- ?app_assoc; simpl));
  rewrite ?app_nil_r.

Ltac right_nest := repeat (progress (rewrite <- ?app_assoc; cbn [app])).

Lemma c_str_no_nul (l : list ascii) : no_nul l -> c_str l = l.
Proof.
  induction 1 as [|c l Hc Hl IH]; simpl; [reflexivity|].
  now rewrite Hc, IH.
Qed.

Lemma firstn_skipn_no_newline (n : nat) (l : list ascii) :
  no_newline l -> no_newline (firstn n l) /\ no_newline (skipn n l).
Proof.
  intros H. split; [now apply Forall_take | now apply Forall_drop].
Qed.

Lemma no_newline_repeat (c : ascii) (n : nat) :
  (code c =? 10) = false -> no_newline (repeat c n).
Proof. intros H. induction n; simpl; constructor; auto. Qed.

(** ** The line classifier *)

Lemma classifier_range (line : cstring) :
  SCRConfIsLineBlankOrComment line = 0 \/ SCRConfIsLineBlankOrComment line = 1.
Proof.
  induction line as [|c line IH]; simpl; [now right|].
  destruct (code c =? 35); [now right|].
  destruct (isspace c); simpl; [exact IH | now left].
Qed.

Lemma classifier_true (line : cstring) :
  SCRConfIsLineBlankOrComment line = 1 <->
  all_space line \/
  exists pre rest, line = pre ++ HASH :: rest /\ all_space pre.
Proof.
  induction line as [|c line IH]; simpl.
  - split; [intros _; left; constructor | reflexivity].
  - destruct (code c =? 35) eqn:Hh.
    + apply code_eqb_eq in Hh; [|lia]. subst c. split; [|reflexivity].
      intros _. right. exists [], line. split; [reflexivity | constructor].
    + destruct (isspace c) eqn:Hs; simpl.
      * rewrite IH. split.
        -- intros [Hall | (pre & rest & -> & Hpre)].
           ++ left. now constructor.
           ++ right. exists (c :: pre), rest. split; [reflexivity | now constructor].
        -- intros [Hall | (pre & rest & Heq & Hpre)].
           ++ left. now inversion Hall.
           ++ destruct pre as [|x pre]; simpl in Heq; injection Heq as -> ->.
              ** discriminate Hh.
              ** right. exists pre, rest. split; [reflexivity | now inversion Hpre].
      * split; [discriminate|].
        intros [Hall | (pre & rest & Heq & Hpre)].
        -- inversion Hall; congruence.
        -- destruct pre as [|x pre]; simpl in Heq; injection Heq as -> ->.
           ++ discriminate Hh.
           ++ inversion Hpre; congruence.
Qed.

Lemma classifier_false (line : cstring) :
  SCRConfIsLineBlankOrComment line = 0 <->
  exists pre c rest,
    line = pre ++ c :: rest /\ all_space pre /\ isspace c = false /\ c <> HASH.
Proof.
  induction line as [|c line IH]; simpl.
  - split; [discriminate|]. intros (pre & c & rest & Heq & _).
    now destruct pre.
  - destruct (code c =? 35) eqn:Hh.
    + apply code_eqb_eq in Hh; [|lia]. subst c. split; [discriminate|].
      intros (pre & c & rest & Heq & Hpre & Hc & Hne).
      destruct pre as [|x pre]; simpl in Heq; injection Heq as <- ->.
      * now contradiction Hne.
      * inversion Hpre; subst. discriminate.
    + destruct (isspace c) eqn:Hs; simpl.
      * rewrite IH. split.
        -- intros (pre & d & rest & -> & Hpre & Hd & Hne).
           exists (c :: pre), d, rest. repeat split; auto. now constructor.
        -- intros (pre & d & rest & Heq & Hpre & Hd & Hne).
           destruct pre as [|x pre]; simpl in Heq; injection Heq as <- ->.
           ++ congruence.
           ++ exists pre, d, rest. repeat split; auto. now inversion Hpre.
      * split; [|reflexivity]. intros _.
        exists [], c, line. repeat split; auto; [constructor|].
        intros ->. discriminate Hh.
Qed.

(** C5. The line classifier answers 1 exactly when every character of
    the line is whitespace or the first character that is not whitespace
    is the hash sign, and answers 0 exactly when the first character that
    is not whitespace is some other character, whatever follows it. *)
Theorem SCRConfIsLineBlankOrComment_spec (line : cstring) :
  (SCRConfIsLineBlankOrComment line = 1 <->
     all_space line \/
     exists pre rest, line = pre ++ HASH :: rest /\ all_space pre)
  /\
  (SCRConfIsLineBlankOrComment line = 0 <->
     exists pre c rest,
       line = pre ++ c :: rest /\ all_space pre /\ isspace c = false /\ c <> HASH)
  /\
  (SCRConfIsLineBlankOrComment line = 0 \/ SCRConfIsLineBlankOrComment line = 1).
Proof.
  split; [apply classifier_true|]. split; [apply classifier_false|].
  apply classifier_range.
Qed.

Lemma SCRConfIsLineBlankOrComment_spec_witness :
  SCRConfIsLineBlankOrComment (str "  # comment") = 1.
Proof.
  apply (proj2 (proj1 (SCRConfIsLineBlankOrComment_spec (str "  # comment")))).
  right. exists (str "  "), (str " comment").
  split; [reflexivity | repeat constructor].
Defined.

(** ** The compare callback *)

Lemma memcmp_zero_iff (a b : cstring) :
  length a = length b -> (memcmp a b (length a) = 0 <-> a = b).
Proof.
  revert b. induction a as [|x a IH]; intros [|y b] Hlen; simpl in *;
    try discriminate; [tauto|].
  injection Hlen as Hlen. destruct (code x =? code y) eqn:Hxy.
  - apply Z.eqb_eq, code_inj in Hxy. subst y. rewrite (IH b Hlen).
    split; [now intros -> | now intros [= ->]].
  - apply Z.eqb_neq in Hxy. split; [lia | intros [= -> _]; congruence].
Qed.

Lemma compare_exact (ref1 ref2 : SCRConfReference) :
  SCRConfReferenceHashCompareFunc (Some ref1) (Some ref2) = 1 <->
  system ref1 = system ref2.
Proof.
  unfold SCRConfReferenceHashCompareFunc.
  destruct (Nat.eqb (length (system ref1)) (length (system ref2))) eqn:Hlen; simpl.
  - apply Nat.eqb_eq in Hlen.
    destruct (memcmp (system ref1) (system ref2) (length (system ref1)) =? 0) eqn:Hm.
    + apply Z.eqb_eq in Hm. apply memcmp_zero_iff in Hm; tauto.
    + apply Z.eqb_neq in Hm. split; [discriminate|].
      intros Heq. apply memcmp_zero_iff in Heq; tauto.
  - apply Nat.eqb_neq in Hlen. split; [discriminate | congruence].
Qed.

(** C6, as stated, fails: the compare callback tells a mixed-case key
    from its lowercase form. *)
Lemma compare_is_case_sensitive :
  ~ (forall ref1 ref2 : SCRConfReference,
       case_insensitively_equal (system ref1) (system ref2) ->
       SCRConfReferenceHashCompareFunc (Some ref1) (Some ref2) = 1).
Proof.
  intros H.
  specialize (H (mkRef (str "One") None) (mkRef (str "one") None) eq_refl).
  vm_compute in H. discriminate H.
Qed.

(** C6, amended.  The compare callback reports two entries equal exactly
    when their keys are the same bytes; it folds no case.  The entries
    that [SCRConfAllocSCRConfReference] builds carry lowercased keys, so
    two of them compare equal exactly when the names they were built from
    are equal up to ASCII case. *)
Theorem compare_exact_on_normalized_keys :
  (forall ref1 ref2 : SCRConfReference,
     SCRConfReferenceHashCompareFunc (Some ref1) (Some ref2) = 1 <->
     system ref1 = system ref2)
  /\
  (forall (name1 name2 : cstring) (url1 url2 : option cstring) (h1 h2 : heap_t),
     SCRConfReferenceHashCompareFunc
       (allocated (SCRConfAllocSCRConfReference (Some name1) url1 h1))
       (allocated (SCRConfAllocSCRConfReference (Some name2) url2 h2)) = 1 <->
     case_insensitively_equal name1 name2).
Proof.
  split; [apply compare_exact|].
  intros. unfold allocated, SCRConfAllocSCRConfReference; simpl.
  rewrite !lookup_insert_eq. apply compare_exact.
Qed.

Lemma compare_exact_on_normalized_keys_witness :
  SCRConfReferenceHashCompareFunc
    (allocated (SCRConfAllocSCRConfReference (Some (str "CVE")) None ∅))
    (allocated (SCRConfAllocSCRConfReference (Some (str "cve"))
                  (Some (str "http://cve.mitre.org/")) ∅)) = 1.
Proof.
  apply (proj2 (proj2 compare_exact_on_normalized_keys
                  (str "CVE") (str "cve") None (Some (str "http://cve.mitre.org/"))
                  ∅ ∅)).
  reflexivity.
Defined.

(** ** The matching engine *)

Section Star.
Context {R : Type} (p : ascii -> bool) (k : cstring -> nat -> option R).

Lemma pcre_star_inv (s : cstring) (pos : nat) (r : R) :
  pcre_star p k s pos = Some r ->
  exists l rest, s = l ++ rest /\ holds p l /\ k rest (pos + length l)%nat = Some r.
Proof.
  revert pos. induction s as [|c s IH]; intros pos; simpl.
  - intros H. exists [], []. rewrite Nat.add_0_r. repeat split; auto. constructor.
  - destruct (p c) eqn:Hc.
    + destruct (pcre_star p k s (S pos)) as [r'|] eqn:Hrec.
      * intros [= ->]. destruct (IH _ Hrec) as (l & rest & -> & Hl & Hk).
        exists (c :: l), rest. simpl. rewrite Nat.add_succ_r.
        repeat split; auto. now constructor.
      * intros H. exists [], (c :: s). rewrite Nat.add_0_r.
        repeat split; auto. constructor.
    + intros H. exists [], (c :: s). rewrite Nat.add_0_r.
      repeat split; auto. constructor.
Qed.

(** The longest repetition is tried first: when the continuation
    accepts what follows it, that is the result. *)
Lemma pcre_star_greedy (l rest : cstring) (pos : nat) (r : R) :
  holds p l -> stops p rest -> k rest (pos + length l)%nat = Some r ->
  pcre_star p k (l ++ rest) pos = Some r.
Proof.
  intros Hl Hrest. revert pos. induction Hl as [|c l Hc Hl IH]; intros pos Hk; simpl in *.
  - rewrite Nat.add_0_r in Hk. destruct rest as [|c rest]; simpl in *; [exact Hk|].
    now rewrite Hrest.
  - rewrite Hc. rewrite (IH (S pos)); [reflexivity|].
    now rewrite Nat.add_succ_l, <- Nat.add_succ_r.
Qed.

(** When the continuation cannot start with a character of the class,
    giving characters back is of no use: the repetition takes all it
    can and the continuation decides. *)
Lemma pcre_star_committed (l rest : cstring) (pos : nat) :
  (forall c s' pos', p c = true -> k (c :: s') pos' = None) ->
  holds p l -> stops p rest ->
  pcre_star p k (l ++ rest) pos = k rest (pos + length l)%nat.
Proof.
  intros Hk Hl Hrest. revert pos. induction Hl as [|c l Hc Hl IH]; intros pos; simpl in *.
  - rewrite Nat.add_0_r. destruct rest as [|c rest]; simpl in *; [reflexivity|].
    now rewrite Hrest.
  - rewrite Hc, (IH (S pos)), Nat.add_succ_l, <- Nat.add_succ_r.
    destruct (k rest (pos + S (length l))%nat) eqn:E; [reflexivity|].
    now apply Hk.
Qed.
End Star.

Lemma pcre_match_sound (re : pcre) :
  forall (done s : cstring) (ov ov' : ovector),
    pcre_match re s (length done) ov = Some ov' -> parses re done s ov ov'.
Proof.
  induction re as [|n re IH]; intros done s ov ov'; simpl.
  - now intros [= <-].
  - destruct n as [| |c|p|p|p|g|g].
    + (* ^ *)
      destruct (Nat.eqb (length done) 0) eqn:E; [|discriminate].
      apply Nat.eqb_eq in E. destruct done; [|discriminate]. intros H.
      exists [], s, ov. repeat split; auto.
    + (* $ *)
      intros H. exists [], s, ov. rewrite app_nil_r.
      destruct s as [|c [|d s]]; try discriminate.
      * repeat split; auto.
      * destruct (code c =? 10) eqn:E; [|discriminate].
        apply code_eqb_eq in E; [|lia]. subst c. repeat split; auto.
    + (* literal *)
      destruct s as [|x s]; [discriminate|].
      destruct (Ascii.eqb x c) eqn:E; [|discriminate].
      apply Ascii.eqb_eq in E. subst x. intros H.
      exists [c], s, ov. repeat split; auto. apply IH.
      now rewrite length_app, Nat.add_1_r.
    + (* class *)
      destruct s as [|x s]; [discriminate|].
      destruct (p x) eqn:E; [|discriminate]. intros H.
      exists [x], s, ov. repeat split; eauto. apply IH.
      now rewrite length_app, Nat.add_1_r.
    + (* class* *)
      intros H. apply pcre_star_inv in H. destruct H as (l & rest & -> & Hl & Hk).
      exists l, rest, ov. repeat split; auto. apply IH. now rewrite length_app.
    + (* class+ *)
      destruct s as [|x s]; [discriminate|].
      destruct (p x) eqn:E; [|discriminate]. intros H.
      apply pcre_star_inv in H. destruct H as (l & rest & -> & Hl & Hk).
      exists (x :: l), rest, ov. split; [reflexivity|].
      split; [split; [discriminate | split; [now constructor | reflexivity]]|].
      apply IH. rewrite length_app. simpl. now rewrite Nat.add_succ_r.
    + intros H. exists [], s, (ov_set ov (2 * g) (length done)).
      repeat split; auto. apply IH. now rewrite app_nil_len.
    + intros H. exists [], s, (ov_set ov (2 * g + 1) (length done)).
      repeat split; auto. apply IH. now rewrite app_nil_len.
Qed.

(** A pattern that starts with [^] matches at offset 0 or not at all. *)
Lemma pcre_exec_anchored (re : pcre) (s : cstring) :
  pcre_exec (NBol :: re) s = pcre_match re s 0 (ov_set ov_init 0 0%nat).
Proof.
  unfold pcre_exec. 
  assert (Hfail : forall s n, pcre_exec_from (NBol :: re) s (S n) = None).
  { clear s. induction s as [|c s IH]; intros n; simpl; [reflexivity | apply IH]. }
  destruct s as [|c s]; simpl.
  - now destruct (pcre_match re [] 0 _).
  - destruct (pcre_match re (c :: s) 0 _); [reflexivity | apply Hfail].
Qed.

Lemma cannot_start_lit (p : ascii -> bool) (c : ascii) (re : pcre) :
  p c = false -> cannot_start p (NLit c :: re).
Proof.
  intros Hc x s pos ov Hx. simpl. destruct (Ascii.eqb x c) eqn:E; [|reflexivity].
  apply Ascii.eqb_eq in E. congruence.
Qed.

Lemma match_lit (c : ascii) (re : pcre) (s : cstring) (pos : nat) (ov : ovector) :
  pcre_match (NLit c :: re) (c :: s) pos ov = pcre_match re s (S pos) ov.
Proof. simpl. now rewrite Ascii.eqb_refl. Qed.

Lemma match_open (g : nat) (re : pcre) (s : cstring) (pos : nat) (ov : ovector) :
  pcre_match (NOpen g :: re) s pos ov = pcre_match re s pos (ov_set ov (2 * g) pos).
Proof. reflexivity. Qed.

Lemma match_close (g : nat) (re : pcre) (s : cstring) (pos : nat) (ov : ovector) :
  pcre_match (NClose g :: re) s pos ov =
  pcre_match re s pos (ov_set ov (2 * g + 1) pos).
Proof. reflexivity. Qed.

Lemma match_set (p : ascii -> bool) (c : ascii) (re : pcre) (s : cstring)
    (pos : nat) (ov : ovector) :
  p c = true ->
  pcre_match (NSet p :: re) (c :: s) pos ov = pcre_match re s (S pos) ov.
Proof. intros H. simpl. now rewrite H. Qed.

Lemma match_eol_nil (pos : nat) (ov : ovector) :
  pcre_match [NEol] [] pos ov = Some (ov_set ov 1 pos).
Proof. reflexivity. Qed.

Lemma match_star_committed (p : ascii -> bool) (re : pcre) (l rest : cstring)
    (pos : nat) (ov : ovector) :
  cannot_start p re -> holds p l -> stops p rest ->
  pcre_match (NStar p :: re) (l ++ rest) pos ov =
  pcre_match re rest (pos + length l) ov.
Proof.
  intros Hre Hl Hrest. simpl.
  apply (pcre_star_committed p (fun s' pos' => pcre_match re s' pos' ov)); auto.
Qed.

Lemma match_plus_committed (p : ascii -> bool) (re : pcre) (l rest : cstring)
    (pos : nat) (ov : ovector) :
  cannot_start p re -> l <> [] -> holds p l -> stops p rest ->
  pcre_match (NPlus p :: re) (l ++ rest) pos ov =
  pcre_match re rest (pos + length l) ov.
Proof.
  intros Hre Hne Hl Hrest. destruct l as [|c l]; [congruence|].
  inversion Hl as [|? ? Hc Hl']; subst. simpl. rewrite Hc.
  rewrite (pcre_star_committed p (fun s' pos' => pcre_match re s' pos' ov)); auto.
  now rewrite Nat.add_succ_r.
Qed.

Lemma match_star_greedy (p : ascii -> bool) (re : pcre) (l rest : cstring)
    (pos : nat) (ov ov' : ovector) :
  holds p l -> stops p rest ->
  pcre_match re rest (pos + length l) ov = Some ov' ->
  pcre_match (NStar p :: re) (l ++ rest) pos ov = Some ov'.
Proof.
  intros Hl Hrest Hk. simpl.
  now apply (pcre_star_greedy p (fun s' pos' => pcre_match re s' pos' ov)).
Qed.

Lemma match_plus_greedy (p : ascii -> bool) (re : pcre) (l rest : cstring)
    (pos : nat) (ov ov' : ovector) :
  l <> [] -> holds p l -> stops p rest ->
  pcre_match re rest (pos + length l) ov = Some ov' ->
  pcre_match (NPlus p :: re) (l ++ rest) pos ov = Some ov'.
Proof.
  intros Hne Hl Hrest Hk. destruct l as [|c l]; [congruence|].
  inversion Hl as [|? ? Hc Hl']; subst. simpl. rewrite Hc.
  apply (pcre_star_greedy p (fun s' pos' => pcre_match re s' pos' ov)); auto.
  now rewrite Nat.add_succ_l, <- Nat.add_succ_r.
Qed.

Lemma match_star_to_end (p : ascii -> bool) (re : pcre) (l : cstring)
    (pos : nat) (ov ov' : ovector) :
  holds p l ->
  pcre_match re [] (pos + length l) ov = Some ov' ->
  pcre_match (NStar p :: re) l pos ov = Some ov'.
Proof.
  intros Hl Hk. rewrite <- (app_nil_r l) at 1.
  now apply match_star_greedy.
Qed.

(** ** The directive pattern *)

Lemma exec_directive (vt : bool) (s : cstring) :
  pcre_exec (SC_RCONF_REGEX vt) s =
  pcre_match (tl (SC_RCONF_REGEX vt)) s 0 (ov_set ov_init 0 0%nat).
Proof.
  change (SC_RCONF_REGEX vt) with (NBol :: tl (SC_RCONF_REGEX vt)) at 1.
  apply pcre_exec_anchored.
Qed.

Lemma match_directive_inv (vt : bool) (s name value : cstring) :
  match_directive vt s = Some (name, value) ->
  exists head sep tail,
    s = head ++ name ++ sep ++ value ++ tail /\
    directive_head vt head /\ valid_name name /\
    sep <> [] /\ holds (pcre_space vt) sep /\
    value <> [] /\ holds pcre_dot value /\
    holds (pcre_space vt) tail.
Proof.
  unfold match_directive.
  change (SC_RCONF_REGEX vt) with (NBol :: tl (SC_RCONF_REGEX vt)).
  rewrite pcre_exec_anchored.
  destruct (pcre_match _ s 0 _) as [ov|] eqn:Hm; [|discriminate].
  apply (pcre_match_sound _ []) in Hm. cbn in Hm.
  destruct Hm as (pre & ? & ? & -> & [Hpre ->] & Hm).
  do 6 destruct Hm as (? & ? & ? & -> & [-> ->] & Hm).
  destruct Hm as (ws1 & ? & ? & -> & (Hws1n & Hws1 & ->) & Hm).
  do 9 destruct Hm as (? & ? & ? & -> & [-> ->] & Hm).
  destruct Hm as (ws2 & ? & ? & -> & [Hws2 ->] & Hm).
  destruct Hm as (? & ? & ? & -> & [-> ->] & Hm).
  destruct Hm as (ws3 & ? & ? & -> & [Hws3 ->] & Hm).
  destruct Hm as (? & ? & ? & -> & [-> ->] & Hm).
  destruct Hm as (? & ? & ? & -> & [(a & -> & Ha) ->] & Hm).
  destruct Hm as (name' & ? & ? & -> & [Hname' ->] & Hm).
  destruct Hm as (? & ? & ? & -> & [-> ->] & Hm).
  destruct Hm as (sep & ? & ? & -> & (Hsepn & Hsep & ->) & Hm).
  destruct Hm as (? & ? & ? & -> & [-> ->] & Hm).
  destruct Hm as (val & ? & ? & -> & (Hvaln & Hval & ->) & Hm).
  destruct Hm as (? & ? & ? & -> & [-> ->] & Hm).
  destruct Hm as (tail & ? & ? & -> & [Htail ->] & Hm).
  destruct Hm as (? & eol & ? & -> & (-> & Heol & ->) & Hm).
  subst ov. unfold pcre_get_substring. cbn [ov_set Nat.eqb Nat.mul Nat.add].
  pose (head := pre ++ str "config" ++ ws1 ++ str "reference" ++ ws2 ++ str ":" ++ ws3).
  match goal with
  | |- Some (?x, ?y) = _ -> _ =>
      assert (E1 : x = a :: name')
        by (apply (substring_between _ _ _ head (a :: name') (sep ++ val ++ tail ++ eol));
            unfold head; norm_app; reflexivity);
      assert (E2 : y = val)
        by (apply (substring_between _ _ _ (head ++ (a :: name') ++ sep) val (tail ++ eol));
            unfold head; norm_app; reflexivity);
      rewrite E1, E2; clear E1 E2
  end.
  intros [= <- <-]. exists head, sep, (tail ++ eol).
  split; [unfold head; norm_app; reflexivity|].
  split; [exists pre, ws1, ws2, ws3; auto 10|].
  split; [exists a, name'; auto|].
  repeat (split; [assumption|]).
  apply Forall_app. split; [assumption|].
  destruct Heol as [-> | ->]; [constructor|].
  constructor; [now destruct vt | constructor].
Qed.

Lemma cannot_start_name (vt : bool) (re : pcre) :
  cannot_start (pcre_space vt) (NOpen 1 :: NSet pcre_alpha :: re).
Proof.
  intros x s pos ov Hx. simpl. now rewrite (space_not_alpha vt x Hx).
Qed.

Lemma cannot_start_sep (vt : bool) (re : pcre) :
  cannot_start pcre_namechar (NClose 1 :: NPlus (pcre_space vt) :: re).
Proof.
  intros x s pos ov Hx. simpl. now rewrite (namechar_not_space vt x Hx).
Qed.

Lemma stops_space_namechar (vt : bool) (sep rest : cstring) :
  sep <> [] -> holds (pcre_space vt) sep -> stops pcre_namechar (sep ++ rest).
Proof.
  intros Hne Hsep. destruct sep as [|w sep]; [congruence|].
  inversion Hsep; subst. simpl.
  destruct (pcre_namechar w) eqn:E; [|reflexivity].
  apply (namechar_not_space vt) in E. congruence.
Qed.

Lemma stops_space_name (vt : bool) (name rest : cstring) :
  valid_name name -> stops (pcre_space vt) (name ++ rest).
Proof.
  intros (a & name' & -> & Ha & _). simpl.
  destruct (pcre_space vt a) eqn:E; [|reflexivity].
  apply space_not_alpha in E. congruence.
Qed.

(** The head of a directive is matched in one way only. *)
Lemma match_head (vt : bool) (head rest : cstring) (ov : ovector) :
  directive_head vt head -> stops (pcre_space vt) rest ->
  pcre_match (tl (SC_RCONF_REGEX vt)) (head ++ rest) 0 ov =
  pcre_match (name_regex vt) rest (length head) ov.
Proof.
  intros (pre & ws1 & ws2 & ws3 & -> & Hpre & Hws1n & Hws1 & Hws2 & Hws3) Hrest.
  cbn [SC_RCONF_REGEX tl lit str list_ascii_of_string List.map app].
  right_nest.
  rewrite match_star_committed; auto;
    [|now apply cannot_start_lit; destruct vt|now destruct vt].
  rewrite !match_lit.
  rewrite match_plus_committed; auto;
    [|now apply cannot_start_lit; destruct vt|now destruct vt].
  rewrite !match_lit.
  rewrite match_star_committed; auto;
    [|now apply cannot_start_lit; destruct vt|now destruct vt].
  rewrite !match_lit.
  rewrite match_star_committed; auto; [|apply cannot_start_name].
  unfold name_regex. f_equal. rewrite !length_app. simpl.
  rewrite !length_app. simpl. rewrite !length_app. simpl. lia.
Qed.

(** From the name on, a directive whose value starts with a character
    that is not whitespace is matched at the first attempt. *)
Lemma match_name_part (vt : bool) (name sep value tail : cstring)
    (pos : nat) (ov : ovector) :
  valid_name name -> sep <> [] -> holds (pcre_space vt) sep ->
  valid_value vt value -> holds (pcre_space vt) tail -> stops pcre_dot tail ->
  exists ov',
    pcre_match (name_regex vt) (name ++ sep ++ value ++ tail) pos ov = Some ov' /\
    ov' 2%nat = pos /\
    ov' 3%nat = (pos + length name)%nat /\
    ov' 4%nat = (pos + length name + length sep)%nat /\
    ov' 5%nat = (pos + length name + length sep + length value)%nat.
Proof.
  intros (a & name' & -> & Ha & Hname') Hsepn Hsep
         [(v & value' & -> & Hv) Hval] Htail Hstop.
  eexists. split.
  - unfold name_regex. rewrite match_open. cbn [app].
    rewrite match_set by assumption.
    rewrite match_star_committed;
      [|apply cannot_start_sep|assumption|now apply (stops_space_namechar vt)].
    rewrite match_close.
    apply match_plus_greedy; [assumption|assumption|exact Hv|].
    rewrite match_open.
    apply (match_plus_greedy _ _ (v :: value') tail);
      [discriminate|assumption|exact Hstop|].
    rewrite match_close.
    apply match_star_to_end; [assumption|].
    apply match_eol_nil.
  - cbn [ov_set Nat.eqb Nat.mul Nat.add length]. repeat split; lia.
Qed.

(** A line built by the grammar, whose value starts with a character
    that is not whitespace and runs to the end of the line, is matched,
    and the two substrings are its name and its value. *)
Lemma match_directive_complete (vt : bool) (head name sep value tail : cstring) :
  directive_head vt head -> valid_name name ->
  sep <> [] -> holds (pcre_space vt) sep ->
  valid_value vt value ->
  holds (pcre_space vt) tail -> stops pcre_dot tail ->
  match_directive vt (head ++ name ++ sep ++ value ++ tail) = Some (name, value).
Proof.
  intros Hhead Hname Hsepn Hsep Hvalue Htail Hstop.
  unfold match_directive. rewrite exec_directive.
  rewrite match_head by (auto using stops_space_name).
  destruct (match_name_part vt name sep value tail (length head)
              (ov_set ov_init 0 0%nat))
    as (ov' & -> & E2 & E3 & E4 & E5); auto.
  unfold pcre_get_substring. cbn [Nat.mul Nat.add]. rewrite E2, E3, E4, E5.
  f_equal. f_equal.
  - now apply substring_len.
  - rewrite (app_assoc name), (app_assoc head).
    apply substring_len; rewrite !length_app; lia.
Qed.

(** Without a letter where the name should start there is no match. *)
Lemma match_directive_no_name (vt : bool) (head rest : cstring) :
  directive_head vt head ->
  stops (pcre_space vt) rest -> stops pcre_alpha rest ->
  match_directive vt (head ++ rest) = None.
Proof.
  intros Hhead Hsp Hal. unfold match_directive.
  rewrite exec_directive, match_head by assumption.
  unfold name_regex. rewrite match_open.
  destruct rest as [|c rest]; simpl in *; [reflexivity|].
  now rewrite Hal.
Qed.

(** Without a character other than the newline after the first
    whitespace that follows the name there is no match. *)
Lemma match_directive_no_value (vt : bool) (head name ws : cstring) :
  directive_head vt head -> valid_name name ->
  holds (pcre_space vt) ws -> holds is_newline (tl ws) ->
  match_directive vt (head ++ name ++ ws) = None.
Proof.
  intros Hhead Hname Hws Hnl. unfold match_directive.
  rewrite exec_directive, match_head by (auto using stops_space_name).
  destruct Hname as (a & name' & -> & Ha & Hname').
  unfold name_regex. rewrite match_open. cbn [app].
  rewrite match_set by assumption.
  rewrite match_star_committed; [|apply cannot_start_sep|assumption|].
  2:{ destruct ws as [|w ws]; [exact I|]. inversion Hws; subst. simpl.
      destruct (pcre_namechar w) eqn:E; [|reflexivity].
      apply (namechar_not_space vt) in E. congruence. }
  rewrite match_close.
  destruct ws as [|w ws]; [reflexivity|].
  inversion Hws as [|? ? Hw Hws']; subst. simpl in Hnl.
  cbn [pcre_match]. rewrite Hw.
  match goal with |- match ?x with _ => _ end = _ => destruct x as [r|] eqn:E end;
    [|reflexivity].
  apply pcre_star_inv in E. destruct E as (l & rest & Heq & _ & Hk).
  assert (Hrest : holds is_newline rest).
  { rewrite Heq in Hnl. now apply Forall_app in Hnl. }
  destruct rest as [|c rest]; [discriminate Hk|].
  inversion Hrest as [|? ? Hc _]; subst. simpl in Hk.
  unfold is_newline in Hc. unfold pcre_dot in Hk. rewrite Hc in Hk. discriminate Hk.
Qed.

(** The classifier lets every line through that the pattern matches. *)
Lemma classifier_on_head (vt : bool) (head rest : cstring) :
  directive_head vt head ->
  SCRConfIsLineBlankOrComment (head ++ rest) = 0.
Proof.
  intros (pre & ws1 & ws2 & ws3 & -> & Hpre & _). rewrite <- app_assoc.
  induction Hpre as [|c pre Hc Hpre IH]; [reflexivity|].
  simpl. apply space_isspace in Hc as Hs. rewrite Hs. simpl.
  destruct (code c =? 35) eqn:E; [|exact IH].
  apply code_eqb_eq in E; [|lia]. subst c. discriminate Hs.
Qed.

Lemma classifier_on_match (vt : bool) (s name value : cstring) :
  match_directive vt s = Some (name, value) ->
  SCRConfIsLineBlankOrComment s = 0.
Proof.
  intros H. apply match_directive_inv in H.
  destruct H as (head & sep & tail & -> & Hhead & _).
  now apply (classifier_on_head vt).
Qed.

Lemma directive_head_plain (vt : bool) :
  directive_head vt (str "config reference: ").
Proof.
  exists [], (str " "), [], (str " ").
  split; [reflexivity|]. split; [constructor|].
  split; [discriminate|].
  split; [repeat constructor; now destruct vt|].
  split; [constructor | repeat constructor; now destruct vt].
Qed.

(** C4. Whenever the matcher accepts a line, the name it extracts is
    not empty and starts with a letter, and the value it extracts is not
    empty.  A line with the head of a directive and then no letter
    where the name should start is rejected, and so is a line with head
    and name and then nothing but one whitespace character and newlines.
    The two lines of the specification, with and without their newline,
    are rejected. *)
Theorem match_directive_rejects (vt : bool) :
  (forall s name value : cstring,
     match_directive vt s = Some (name, value) ->
     valid_name name /\ value <> [] /\ holds pcre_dot value)
  /\
  (forall head rest : cstring,
     directive_head vt head ->
     stops (pcre_space vt) rest -> stops pcre_alpha rest ->
     match_directive vt (head ++ rest) = None)
  /\
  (forall head name ws : cstring,
     directive_head vt head -> valid_name name ->
     holds (pcre_space vt) ws -> holds is_newline (tl ws) ->
     match_directive vt (head ++ name ++ ws) = None)
  /\
  match_directive vt (str "config reference one http://x") = None /\
  match_directive vt (str "config reference one http://x" ++ [LF]) = None /\
  match_directive vt (str "config reference: four") = None /\
  match_directive vt (str "config reference: four" ++ [LF]) = None.
Proof.
  split.
  { intros s name value H. apply match_directive_inv in H.
    destruct H as (head & sep & tail & _ & _ & Hname & _ & _ & Hv & Hdot & _).
    auto. }
  split; [apply match_directive_no_name|].
  split; [apply match_directive_no_value|].
  destruct vt; repeat split; vm_compute; reflexivity.
Qed.

Lemma match_directive_rejects_witness :
  (valid_name (str "cve") /\ str "http://cve.mitre.org/" <> [] /\
   holds pcre_dot (str "http://cve.mitre.org/")) /\
  match_directive true (str "config reference: " ++ str "9lives http://x") = None /\
  match_directive true (str "config reference: " ++ str "four" ++ [LF]) = None.
Proof.
  split; [|split].
  - apply (proj1 (match_directive_rejects true)
             (str "config reference: cve http://cve.mitre.org/")).
    vm_compute. reflexivity.
  - apply (proj1 (proj2 (match_directive_rejects true))
             (str "config reference: ") (str "9lives http://x")).
    + apply directive_head_plain.
    + reflexivity.
    + reflexivity.
  - apply (proj1 (proj2 (proj2 (match_directive_rejects true)))
             (str "config reference: ") (str "four") [LF]).
    + apply directive_head_plain.
    + exists "f"%char, (str "our"). split; [reflexivity|].
      split; [reflexivity | repeat constructor].
    + repeat constructor.
    + constructor.
Defined.

(** ** The line buffer *)

Lemma fgets_buf_line (body rest : list ascii) (room : nat) :
  no_newline body -> (length body < room)%nat ->
  fgets_buf room (body ++ LF :: rest) = (body ++ [LF], rest).
Proof.
  intros Hb. revert room. induction Hb as [|c body Hc Hb IH]; intros room Hlen.
  - destruct room; [simpl in Hlen; lia | reflexivity].
  - destruct room; [simpl in Hlen; lia|]. simpl in *.
    rewrite Hc, IH by lia. reflexivity.
Qed.

Lemma fgets_buf_full (pre rest : list ascii) :
  no_newline pre ->
  fgets_buf (length pre) (pre ++ rest) = (pre, rest).
Proof.
  induction 1 as [|c pre Hc Hb IH]; simpl.
  - reflexivity.
  - now rewrite Hc, IH.
Qed.

Lemma fgets_buf_nonempty (n : nat) (c : ascii) (s : list ascii) :
  fst (fgets_buf (S n) (c :: s)) <> [].
Proof.
  change (fgets_buf (S n) (c :: s))
    with (if code c =? 10 then ([c], s)
          else let '(l, r) := fgets_buf n s in (c :: l, r)).
  destruct (code c =? 10); [discriminate|].
  destruct (fgets_buf n s). discriminate.
Qed.

Lemma fgets_line (body rest : list ascii) :
  line_ok body ->
  fgets 1024 (body ++ LF :: rest) = Some (body ++ [LF], rest).
Proof.
  intros [Hb Hlen]. unfold fgets.
  destruct (body ++ LF :: rest) eqn:E; [now destruct body|].
  rewrite <- E. f_equal. apply fgets_buf_line; [assumption | simpl; lia].
Qed.

Lemma stream_of_cons (l : list ascii) (ls : list (list ascii)) :
  stream_of (l :: ls) = l ++ LF :: stream_of ls.
Proof. unfold stream_of. simpl. now rewrite <- app_assoc. Qed.

Lemma stream_of_length (lines : list (list ascii)) :
  (length lines <= length (stream_of lines))%nat.
Proof.
  induction lines as [|l ls IH]; [simpl; lia|].
  rewrite stream_of_cons, length_app. simpl. lia.
Qed.

Lemma buffers_of_app (l1 l2 : list (list ascii)) :
  buffers_of (l1 ++ l2) = buffers_of l1 ++ buffers_of l2.
Proof. apply List.map_app. Qed.

(** C9. A line of 1024 bytes or more, newline included, does not reach
    the classifier and the matcher in one piece: the first [fgets] hands
    over its first 1023 bytes, the turn of the loop works on those alone,
    and the rest of the line is read, not empty, by the following calls.
    A line of at most 1023 bytes, newline included, is read whole. *)
Theorem long_line_is_split (body rest : list ascii) :
  no_newline body ->
  ((1024 <= length (body ++ [LF]))%nat ->
   fgets 1024 (body ++ LF :: rest)
     = Some (firstn 1023 body, skipn 1023 body ++ LF :: rest) /\
   length (firstn 1023 body) = 1023%nat /\
   firstn 1023 body <> body ++ [LF] /\
   (exists buf rest',
      fgets 1024 (skipn 1023 body ++ LF :: rest) = Some (buf, rest') /\ buf <> []) /\
   (forall (st : state) (fuel : nat),
      fd st = Some (body ++ LF :: rest) ->
      parse_loop (S fuel) st =
      (st' <- parse_line (firstn 1023 body)
                (set_fd st (Some (skipn 1023 body ++ LF :: rest))) ;;
       parse_loop fuel st')))
  /\
  ((length (body ++ [LF]) <= 1023)%nat ->
   fgets 1024 (body ++ LF :: rest) = Some (body ++ [LF], rest)).
Proof.
  intros Hb. split.
  - rewrite length_app. simpl. intros Hlen.
    assert (Hfirst : length (firstn 1023 body) = 1023%nat)
      by (rewrite length_take; lia).
    assert (Hfgets : fgets 1024 (body ++ LF :: rest)
                     = Some (firstn 1023 body, skipn 1023 body ++ LF :: rest)).
    { unfold fgets. destruct (body ++ LF :: rest) eqn:E; [now destruct body|].
      rewrite <- E. f_equal.
      rewrite <- (firstn_skipn 1023 body) at 1. rewrite <- app_assoc.
      change (1024 - 1)%nat with 1023%nat. rewrite <- Hfirst at 1.
      apply fgets_buf_full. now apply firstn_skipn_no_newline. }
    split; [exact Hfgets|]. split; [exact Hfirst|].
    split.
    { intros Heq. apply (f_equal (@length ascii)) in Heq.
      rewrite Hfirst, length_app in Heq. simpl in Heq. lia. }
    split.
    { unfold fgets. destruct (skipn 1023 body ++ LF :: rest) as [|c s] eqn:E;
        [now destruct (skipn 1023 body)|].
      pose proof (fgets_buf_nonempty 1022 c s) as Hne.
      change (1024 - 1)%nat with 1023%nat.
      destruct (fgets_buf 1023 (c :: s)) as [buf rest'].
      exists buf, rest'. split; [reflexivity | exact Hne]. }
    intros st fuel Hfd. simpl. now rewrite Hfd, Hfgets.
  - rewrite length_app. simpl. intros Hlen.
    apply fgets_line. split; [assumption | lia].
Qed.

Lemma long_line_is_split_witness :
  fgets 1024 (repeat "a"%char 1023 ++ LF :: [])
  = Some (firstn 1023 (repeat "a"%char 1023),
          skipn 1023 (repeat "a"%char 1023) ++ LF :: [])
  /\
  fgets 1024 (repeat "a"%char 1022 ++ LF :: [])
  = Some (repeat "a"%char 1022 ++ [LF], []).
Proof.
  split.
  - apply (proj1 (long_line_is_split (repeat "a"%char 1023) []
                    (no_newline_repeat "a"%char 1023 eq_refl))).
    rewrite length_app, repeat_length. simpl. lia.
  - apply (proj2 (long_line_is_split (repeat "a"%char 1022) []
                    (no_newline_repeat "a"%char 1022 eq_refl))).
    rewrite length_app, repeat_length. simpl. lia.
Defined.

(** A directive of 1122 bytes: the url that ends up in the table is cut
    at the end of the first buffer. *)
Example long_directive_is_cut :
  exists st p ref,
    SCRConfLoadReferenceConfigFile (default_env true)
      (initial_state
         (Some (stream_of [str "config reference: one " ++ repeat "a"%char 1100])))
      = Returns (0, st) /\
    SCRConfGetReference (Some (str "one")) st = Returns (Some p, st) /\
    heap st !! p = Some ref /\
    url ref = Some (repeat "a"%char 1001).
Proof.
  eexists. exists 0%nat. eexists.
  split; [vm_compute; reflexivity|].
  split; [vm_compute; reflexivity|].
  split; [vm_compute; reflexivity|].
  vm_compute. reflexivity.
Qed.

(** ** Entry point return values *)

Lemma load_exits_when_init_fails (env : environment) (st : state) :
  fst (SCRConfInitContextAndLocalResources env st) = -1 ->
  SCRConfLoadReferenceConfigFile env st = Exits EXIT_FAILURE.
Proof.
  unfold SCRConfLoadReferenceConfigFile.
  destruct (SCRConfInitContextAndLocalResources env st) as [r st']; simpl.
  now intros ->.
Qed.

Lemma fgets_buf_rest_le (room : nat) (s : list ascii) :
  (length (snd (fgets_buf room s)) <= length s)%nat.
Proof.
  revert room. induction s as [|c s IH]; intros [|room]; simpl; try lia.
  destruct (code c =? 10); simpl; [lia|].
  specialize (IH room). destruct (fgets_buf room s). simpl in *. lia.
Qed.

Lemma fgets_shrinks (s line rest : list ascii) :
  fgets 1024 s = Some (line, rest) -> (length rest < length s)%nat.
Proof.
  destruct s as [|c s]; [discriminate|]. unfold fgets.
  change (1024 - 1)%nat with (S 1022).
  change (fgets_buf (S 1022) (c :: s))
    with (if code c =? 10 then ([c], s)
          else let '(l, r) := fgets_buf 1022 s in (c :: l, r)).
  destruct (code c =? 10).
  - intros [= _ <-]. simpl. lia.
  - pose proof (fgets_buf_rest_le 1022 s) as H.
    destruct (fgets_buf 1022 s) as [l r]. intros [= _ <-]. simpl in *. lia.
Qed.

Lemma add_reference_returns (rawstr : cstring) (st : state) :
  exists r st',
    SCRConfAddReference rawstr st = Returns (r, st') /\ fd st' = fd st.
Proof.
  unfold SCRConfAddReference.
  destruct (regex st) as [re|]; [|now exists (-1), st].
  destruct (pcre_exec re rawstr) as [ov|]; [|now exists (-1), st].
  simpl. destruct (HashTableLookup _ _ _).
  - eexists. eexists. split; reflexivity.
  - destruct (HashTableAdd _ _ _) as [r ht]. eexists. eexists. split; reflexivity.
Qed.

Lemma parse_line_returns (line : list ascii) (st : state) :
  exists st', parse_line line st = Returns st' /\ fd st' = fd st.
Proof.
  unfold parse_line.
  destruct (SCRConfIsLineBlankOrComment (c_str line) =? 1); [now exists st|].
  destruct (add_reference_returns (c_str line) st) as (r & st' & -> & Hfd).
  now exists st'.
Qed.

Lemma parse_loop_returns (fuel : nat) :
  forall (st : state) (s : list ascii),
    fd st = Some s -> (length s <= fuel)%nat ->
    exists st', parse_loop fuel st = Returns st'.
Proof.
  induction fuel as [|fuel IH]; intros st s Hfd Hlen.
  - destruct s; [|simpl in Hlen; lia]. exists st. simpl. now rewrite Hfd.
  - simpl. rewrite Hfd. destruct (fgets 1024 s) as [[line rest]|] eqn:Hf;
      [|now exists st].
    destruct (parse_line_returns line (set_fd st (Some rest))) as (st1 & -> & Hfd1).
    simpl. apply (IH st1 rest); [exact Hfd1|].
    apply fgets_shrinks in Hf. lia.
Qed.

Lemma load_total (env : environment) (st : state) :
  SCRConfLoadReferenceConfigFile env st = Exits EXIT_FAILURE \/
  exists st', SCRConfLoadReferenceConfigFile env st = Returns (0, st').
Proof.
  unfold SCRConfLoadReferenceConfigFile.
  destruct (SCRConfInitContextAndLocalResources env st) as [r st0] eqn:Hinit.
  destruct (r =? -1) eqn:Hr; [now left|]. right.
  assert (Hfd : exists s, fd st0 = Some s).
  { unfold SCRConfInitContextAndLocalResources, init_error in Hinit.
    destruct env as [[] fo [] [] vt], st as [h t [f|] r0], fo;
      simpl in Hinit; injection Hinit as <- <-; try discriminate Hr; eauto. }
  destruct Hfd as [s Hfd]. unfold SCRConfParseFile. rewrite Hfd. simpl.
  destruct (parse_loop_returns (length s) st0 s Hfd) as [st' ->]; [lia|].
  simpl. eauto.
Qed.

(** C8. A call of [SCRConfLoadReferenceConfigFile] that returns, returns
    0; when the hash table cannot be set up, when the file cannot be
    opened, and when the pattern cannot be compiled or studied, the call
    leaves through [exit (EXIT_FAILURE)] and returns nothing.  Every call
    ends in one of these two ways. *)
Theorem load_returns_zero_or_exits (env : environment) (st : state) :
  (forall r st', SCRConfLoadReferenceConfigFile env st = Returns (r, st') -> r = 0)
  /\ (hash_table_init_ok env = false ->
      SCRConfLoadReferenceConfigFile env st = Exits EXIT_FAILURE)
  /\ (fd st = None -> fopen_result env = None ->
      SCRConfLoadReferenceConfigFile env st = Exits EXIT_FAILURE)
  /\ (pcre_compile_ok env = false ->
      SCRConfLoadReferenceConfigFile env st = Exits EXIT_FAILURE)
  /\ (pcre_study_ok env = false ->
      SCRConfLoadReferenceConfigFile env st = Exits EXIT_FAILURE)
  /\ (SCRConfLoadReferenceConfigFile env st = Exits EXIT_FAILURE \/
      exists st', SCRConfLoadReferenceConfigFile env st = Returns (0, st')).
Proof.
  split.
  { intros r st'. unfold SCRConfLoadReferenceConfigFile.
    destruct (SCRConfInitContextAndLocalResources env st) as [r0 st0].
    destruct (r0 =? -1); [discriminate|].
    destruct (SCRConfParseFile st0); simpl; try discriminate.
    now intros [= <- _]. }
  split; [|split; [|split; [|split; [|apply load_total]]]];
    intros; apply load_exits_when_init_fails;
    unfold SCRConfInitContextAndLocalResources, init_error;
    destruct env as [[] fo [] [] vt], st as [h t [f|] r], fo;
    simpl in *; congruence.
Qed.

Lemma load_returns_zero_or_exits_witness :
  (0 = 0 /\
   SCRConfLoadReferenceConfigFile (mkEnv false None true true true)
     (initial_state (Some [])) = Exits EXIT_FAILURE) /\
  SCRConfLoadReferenceConfigFile (mkEnv true None true true true)
    (initial_state None) = Exits EXIT_FAILURE /\
  SCRConfLoadReferenceConfigFile (mkEnv true None false true true)
    (initial_state (Some [])) = Exits EXIT_FAILURE /\
  SCRConfLoadReferenceConfigFile (mkEnv true None true false true)
    (initial_state (Some [])) = Exits EXIT_FAILURE.
Proof.
  split; [split|split; [|split]].
  - apply (proj1 (load_returns_zero_or_exits (default_env true)
                    (initial_state (Some []))) 0
             (mkState ∅ (Some (HashTableInit 128)) None None)).
    reflexivity.
  - apply (proj1 (proj2 (load_returns_zero_or_exits
                           (mkEnv false None true true true)
                           (initial_state (Some []))))).
    reflexivity.
  - apply (proj1 (proj2 (proj2 (load_returns_zero_or_exits
                                  (mkEnv true None true true true)
                                  (initial_state None))))); reflexivity.
  - apply (proj1 (proj2 (proj2 (proj2 (load_returns_zero_or_exits
                                         (mkEnv true None false true true)
                                         (initial_state (Some []))))))).
    reflexivity.
  - apply (proj1 (proj2 (proj2 (proj2 (proj2 (load_returns_zero_or_exits
                                                (mkEnv true None true false true)
                                                (initial_state (Some [])))))))).
    reflexivity.
Defined.

(** ** Allocation and lookup *)

Lemma SCMalloc_fresh (h : heap_t) : h !! SCMalloc h = None.
Proof. apply not_elem_of_dom. unfold SCMalloc. apply is_fresh. Qed.

Lemma set_heap_same (st : state) : set_heap st (heap st) = st.
Proof. now destruct st. Qed.

(** C10. A call of [SCRConfGetReference] that returns leaves the state
    as it found it: the heap holds the same entries, the table the same
    pointers in the same buckets, and [count] is what it was. *)
Theorem SCRConfGetReference_frame (rconf_name : option cstring) (st : state)
    (r : option loc) (st' : state) :
  SCRConfGetReference rconf_name st = Returns (r, st') ->
  st' = st /\ table_count st' = table_count st.
Proof.
  unfold SCRConfGetReference.
  destruct rconf_name as [name|]; simpl; [|discriminate].
  intros [= _ <-]. rewrite delete_insert_id by apply SCMalloc_fresh.
  now rewrite set_heap_same.
Qed.

Lemma SCRConfGetReference_frame_witness :
  store_after true FD01 = store_after true FD01 /\
  table_count (store_after true FD01) = table_count (store_after true FD01).
Proof.
  apply (SCRConfGetReference_frame (Some (str "ONE")) (store_after true FD01)
           (Some 0%nat) (store_after true FD01)).
  vm_compute. reflexivity.
Defined.

(** ** The table represents a finite map *)

Lemma hash_func_range (ref : SCRConfReference) :
  0 <= SCRConfReferenceHashFunc 128 ref < 128.
Proof. unfold SCRConfReferenceHashFunc. apply Z.mod_pos_bound. lia. Qed.

Lemma hash_func_key (k : cstring) (u : option cstring) :
  Z.to_nat (SCRConfReferenceHashFunc 128 (mkRef k u)) = hash_of k.
Proof. reflexivity. Qed.

Lemma hash_of_lt (k : cstring) : (hash_of k < 128)%nat.
Proof.
  unfold hash_of. pose proof (hash_func_range (mkRef k None)). lia.
Qed.

Lemma bucket_find_some (h : heap_t) (chain : list loc) (d p : loc)
    (probe : SCRConfReference) :
  h !! d = Some probe ->
  bucket_find h chain d = Some p ->
  p ∈ chain /\ exists r, h !! p = Some r /\ system r = system probe.
Proof.
  intros Hd. induction chain as [|x chain IH]; simpl; [discriminate|].
  destruct (SCRConfReferenceHashCompareFunc (h !! x) (h !! d) =? 1) eqn:E.
  - intros [= ->]. split; [apply elem_of_cons; now left|].
    apply Z.eqb_eq in E. rewrite Hd in E.
    destruct (h !! p) as [r|] eqn:Hp; [|discriminate E].
    exists r. split; [reflexivity|]. now apply compare_exact.
  - intros H. destruct (IH H) as [Hin Hr]. split; [|exact Hr].
    apply elem_of_cons. now right.
Qed.

Lemma bucket_find_none (h : heap_t) (chain : list loc) (d : loc)
    (probe : SCRConfReference) :
  h !! d = Some probe ->
  bucket_find h chain d = None ->
  forall p r, p ∈ chain -> h !! p = Some r -> system r <> system probe.
Proof.
  intros Hd. induction chain as [|x chain IH]; simpl.
  - intros _ p r Hin. now apply elem_of_nil in Hin.
  - destruct (SCRConfReferenceHashCompareFunc (h !! x) (h !! d) =? 1) eqn:E;
      [discriminate|].
    intros H p r Hin Hp. apply elem_of_cons in Hin. destruct Hin as [-> | Hin].
    + apply Z.eqb_neq in E. rewrite Hd, Hp in E.
      intros Heq. apply E. now apply compare_exact.
    + now apply (IH H p r).
Qed.

(** What a lookup with a fresh probe for key [k] finds. *)
Lemma lookup_represented (st : state) (m : store) (d : loc) (k : cstring)
    (u : option cstring) :
  represents st m -> heap st !! d = None ->
  match m !! k with
  | None =>
      HashTableLookup (reference_conf_ht st) (<[d := mkRef k u]> (heap st)) d = None
  | Some v =>
      exists p,
        HashTableLookup (reference_conf_ht st) (<[d := mkRef k u]> (heap st)) d = Some p /\
        stored st p (mkRef k (Some v))
  end.
Proof.
  intros (t & Ht & Hsize & Hlen & Hcount & Hin & Hout & Huniq) Hfresh.
  unfold HashTableLookup. rewrite Ht, lookup_insert_eq, Hsize.
  pose proof (hash_func_range (mkRef k u)) as Hr.
  destruct (128 <=? SCRConfReferenceHashFunc 128 (mkRef k u)) eqn:E;
    [apply Z.leb_le in E; lia|]. clear E.
  rewrite hash_func_key.
  destruct (array t !! hash_of k) as [chain|] eqn:Hchain.
  2:{ apply lookup_ge_None in Hchain. pose proof (hash_of_lt k). lia. }
  set (h' := <[d := mkRef k u]> (heap st)).
  assert (Hd : h' !! d = Some (mkRef k u)) by apply lookup_insert_eq.
  assert (Hold : forall p, p ∈ chain -> h' !! p = heap st !! p).
  { intros p Hp. unfold h'. apply lookup_insert_ne. intros ->.
    destruct (Hin (hash_of k) p) as (k' & v' & Hp' & _); [now exists chain|].
    congruence. }
  destruct (bucket_find h' chain d) as [p|] eqn:Hfind.
  - destruct (bucket_find_some _ _ _ _ _ Hd Hfind) as (Hp & r & Hr' & Hsys).
    rewrite (Hold p Hp) in Hr'.
    destruct (Hin (hash_of k) p) as (k' & v' & Hp' & _ & Hm); [now exists chain|].
    rewrite Hp' in Hr'. injection Hr' as <-. simpl in Hsys. subst k'.
    rewrite Hm. exists p. split; [reflexivity|].
    exists t, (hash_of k). repeat split; auto. now exists chain.
  - destruct (m !! k) as [v|] eqn:Hm; [|reflexivity].
    destruct (Hout k v Hm) as (p & (chain' & Hc' & Hp) & Hhp).
    rewrite Hchain in Hc'. injection Hc' as <-.
    exfalso. apply (bucket_find_none _ _ _ _ Hd Hfind p (mkRef k (Some v)) Hp);
      [|reflexivity].
    now rewrite (Hold p Hp).
Qed.

(** [SCRConfGetReference] on a represented store. *)
Lemma get_reference_represented (st : state) (m : store) (q : cstring) :
  represents st m ->
  match m !! SCRConfStringToLowercase q with
  | None => SCRConfGetReference (Some q) st = Returns (None, st)
  | Some v =>
      exists p,
        SCRConfGetReference (Some q) st = Returns (Some p, st) /\
        stored st p (mkRef (SCRConfStringToLowercase q) (Some v))
  end.
Proof.
  intros Hrep. unfold SCRConfGetReference. simpl.
  pose proof (lookup_represented st m (SCMalloc (heap st))
                (SCRConfStringToLowercase q) None Hrep (SCMalloc_fresh _)) as H.
  rewrite delete_insert_id by apply SCMalloc_fresh. rewrite set_heap_same.
  destruct (m !! SCRConfStringToLowercase q) as [v|].
  - destruct H as (p & -> & Hp). now exists p.
  - now rewrite H.
Qed.

Lemma lookup_gives_represented (st : state) (m : store) (q v : cstring) :
  represents st m -> m !! SCRConfStringToLowercase q = Some v ->
  exists p,
    SCRConfGetReference (Some q) st = Returns (Some p, st) /\
    stored st p (mkRef (SCRConfStringToLowercase q) (Some v)).
Proof.
  intros Hrep Hm. pose proof (get_reference_represented st m q Hrep) as H.
  now rewrite Hm in H.
Qed.

Lemma stored_unique (st : state) (m : store) (p q : loc) (r1 r2 : SCRConfReference) :
  represents st m -> stored st p r1 -> stored st q r2 ->
  system r1 = system r2 -> p = q.
Proof.
  intros (t & Ht & _ & _ & _ & _ & _ & Huniq)
         (t1 & i & Ht1 & Hp & Hr1) (t2 & j & Ht2 & Hq & Hr2) Hsys.
  rewrite Ht in Ht1, Ht2. injection Ht1 as <-. injection Ht2 as <-.
  eapply Huniq; eauto.
Qed.

Lemma count_represented (st : state) (m : store) :
  represents st m -> table_count st = Some (Z.of_nat (size m)).
Proof.
  intros (t & Ht & _ & _ & Hcount & _). unfold table_count. now rewrite Ht, Hcount.
Qed.

Lemma in_bucket_insert (t : HashTable) (i j : nat) (chain : list loc) (d p : loc) :
  array t !! i = Some chain ->
  in_bucket (mkHT (array_size t) (<[i := d :: chain]> (array t)) (count t + 1)) j p <->
  (i = j /\ p = d) \/ in_bucket t j p.
Proof.
  intros Hi. unfold in_bucket. simpl.
  assert (Hlt : (i < length (array t))%nat) by (eapply lookup_lt_Some; eauto).
  destruct (decide (i = j)) as [<- | Hne].
  - rewrite list_lookup_insert_eq by assumption. split.
    + intros (c & [= <-] & Hp). apply elem_of_cons in Hp.
      destruct Hp as [-> | Hp]; [now left | right; now exists chain].
    + intros [[_ ->] | (c & Hc & Hp)].
      * exists (d :: chain). split; [reflexivity | apply elem_of_cons; now left].
      * rewrite Hi in Hc. injection Hc as <-.
        exists (d :: chain). split; [reflexivity | apply elem_of_cons; now right].
  - rewrite list_lookup_insert_ne by assumption. split.
    + intros H. now right.
    + intros [[-> _] | H]; [contradiction | exact H].
Qed.

Lemma represents_add (st : state) (m : store) (k v : cstring) (t : HashTable)
    (chain : list loc) :
  represents st m -> m !! k = None ->
  reference_conf_ht st = Some t ->
  array t !! hash_of k = Some chain ->
  let d := SCMalloc (heap st) in
  represents
    (set_ht (set_heap st (<[d := mkRef k (Some v)]> (heap st)))
       (Some (mkHT (array_size t) (<[hash_of k := d :: chain]> (array t))
                   (count t + 1))))
    (<[k := v]> m).
Proof.
  intros (t' & Ht' & Hsize & Hlen & Hcount & Hin & Hout & Huniq) Hk Ht Hchain d.
  rewrite Ht in Ht'. injection Ht' as <-.
  assert (Hfresh : heap st !! d = None) by apply SCMalloc_fresh.
  assert (Hlive : forall i p, in_bucket t i p -> p <> d).
  { intros i p Hp ->. destruct (Hin i d Hp) as (? & ? & ? & _). congruence. }
  eexists. split; [reflexivity|]. simpl.
  split; [assumption|]. split; [now rewrite length_insert|].
  split; [rewrite map_size_insert_None by assumption; lia|].
  split; [|split].
  - intros i p Hp. apply (in_bucket_insert t _ _ _ _ _ Hchain) in Hp.
    destruct Hp as [[<- ->] | Hp].
    + exists k, v. rewrite !lookup_insert_eq. auto.
    + destruct (Hin i p Hp) as (k' & v' & Hhp & Hh & Hm).
      exists k', v'.
      split; [rewrite lookup_insert_ne by (symmetry; eauto); assumption|].
      split; [assumption|].
      rewrite lookup_insert_ne; [assumption|]. intros ->. congruence.
  - intros k' v' Hm. destruct (decide (k = k')) as [<- | Hne].
    + rewrite lookup_insert_eq in Hm. injection Hm as <-.
      exists d. split; [|now rewrite lookup_insert_eq].
      apply (in_bucket_insert t _ _ _ _ _ Hchain). now left.
    + rewrite lookup_insert_ne in Hm by assumption.
      destruct (Hout k' v' Hm) as (p & Hp & Hhp).
      exists p. split.
      * apply (in_bucket_insert t _ _ _ _ _ Hchain). now right.
      * rewrite lookup_insert_ne by (symmetry; eauto). assumption.
  - intros i j p q r1 r2 Hp Hq Hr1 Hr2 Hsys.
    apply (in_bucket_insert t _ _ _ _ _ Hchain) in Hp, Hq.
    destruct Hp as [[_ ->] | Hp], Hq as [[_ ->] | Hq]; [reflexivity | | |].
    + rewrite lookup_insert_eq in Hr1. injection Hr1 as <-.
      rewrite lookup_insert_ne in Hr2 by (symmetry; eauto).
      destruct (Hin j q Hq) as (k' & v' & Hhq & _ & Hm).
      rewrite Hhq in Hr2. injection Hr2 as <-. simpl in Hsys. congruence.
    + rewrite lookup_insert_eq in Hr2. injection Hr2 as <-.
      rewrite lookup_insert_ne in Hr1 by (symmetry; eauto).
      destruct (Hin i p Hp) as (k' & v' & Hhp & _ & Hm).
      rewrite Hhp in Hr1. injection Hr1 as <-. simpl in Hsys. congruence.
    + rewrite lookup_insert_ne in Hr1 by (symmetry; eauto).
      rewrite lookup_insert_ne in Hr2 by (symmetry; eauto).
      eauto.
Qed.

Lemma represents_init (st : state) :
  represents (set_ht st (Some (HashTableInit 128))) ∅.
Proof.
  assert (Hempty : forall i p, ~ in_bucket (HashTableInit 128) i p).
  { intros i p (chain & Hc & Hp). unfold HashTableInit in Hc. cbn [array] in Hc.
    apply lookup_replicate in Hc. destruct Hc as [-> _].
    now apply elem_of_nil in Hp. }
  exists (HashTableInit 128). split; [reflexivity|].
  split; [reflexivity|]. split; [reflexivity|].
  split; [reflexivity|]. split; [|split].
  - intros i p Hp. now apply Hempty in Hp.
  - intros k v Hm. now rewrite lookup_empty in Hm.
  - intros i j p q r1 r2 Hp. now apply Hempty in Hp.
Qed.

(** [SCRConfAddReference] on a line the pattern rejects. *)
Lemma add_reference_no_match (vt : bool) (rawstr : cstring) (st : state) :
  regex st = Some (SC_RCONF_REGEX vt) ->
  match_directive vt rawstr = None ->
  SCRConfAddReference rawstr st = Returns (-1, st).
Proof.
  intros Hre Hm. unfold SCRConfAddReference. rewrite Hre.
  unfold match_directive in Hm.
  now destruct (pcre_exec (SC_RCONF_REGEX vt) rawstr).
Qed.

(** [SCRConfAddReference] on a line the pattern accepts: insert if absent. *)
Lemma add_reference_match (vt : bool) (rawstr name value : cstring)
    (st : state) (m : store) :
  regex st = Some (SC_RCONF_REGEX vt) ->
  match_directive vt rawstr = Some (name, value) ->
  represents st m ->
  exists st',
    SCRConfAddReference rawstr st = Returns (0, st') /\
    represents st' (insert_if_absent (SCRConfStringToLowercase name) value m) /\
    fd st' = fd st /\ regex st' = regex st.
Proof.
  intros Hre Hm Hrep. unfold SCRConfAddReference. rewrite Hre.
  unfold match_directive in Hm.
  destruct (pcre_exec (SC_RCONF_REGEX vt) rawstr) as [ov|]; [|discriminate].
  injection Hm as Hn Hv. rewrite Hn, Hv. simpl.
  set (k := SCRConfStringToLowercase name). set (v := value).
  pose proof (lookup_represented st m (SCMalloc (heap st)) k (Some v) Hrep
                (SCMalloc_fresh _)) as Hl.
  unfold insert_if_absent. destruct (m !! k) as [v0|] eqn:Hk.
  - destruct Hl as (p & -> & _).
    rewrite delete_insert_id by apply SCMalloc_fresh. rewrite set_heap_same.
    exists st. auto.
  - rewrite Hl. destruct Hrep as (t & Ht & Hsize & Hlen & Hrest).
    unfold HashTableAdd. rewrite Ht, lookup_insert_eq, Hsize.
    pose proof (hash_func_range (mkRef k (Some v))) as Hr.
    destruct (128 <=? SCRConfReferenceHashFunc 128 (mkRef k (Some v))) eqn:E;
      [apply Z.leb_le in E; lia|]. clear E.
    rewrite hash_func_key.
    destruct (array t !! hash_of k) as [chain|] eqn:Hchain.
    2:{ apply lookup_ge_None in Hchain. pose proof (hash_of_lt k). lia. }
    eexists. split; [reflexivity|]. split; [|split; [reflexivity | exact Hre]].
    rewrite <- Hsize.
    apply represents_add; auto. exists t. auto.
Qed.

(** ** The loader builds the model *)

Lemma parse_line_no_match (vt : bool) (line : list ascii) (st : state) :
  regex st = Some (SC_RCONF_REGEX vt) ->
  match_directive vt (c_str line) = None ->
  parse_line line st = Returns st.
Proof.
  intros Hre Hm. unfold parse_line.
  destruct (SCRConfIsLineBlankOrComment (c_str line) =? 1); [reflexivity|].
  now rewrite (add_reference_no_match vt).
Qed.

Lemma parse_line_represented (vt : bool) (line : list ascii) (st : state) (m : store) :
  regex st = Some (SC_RCONF_REGEX vt) -> represents st m ->
  exists st',
    parse_line line st = Returns st' /\
    represents st' (store_step vt m line) /\
    fd st' = fd st /\ regex st' = regex st.
Proof.
  intros Hre Hrep. unfold store_step, directive_of.
  destruct (match_directive vt (c_str line)) as [[name value]|] eqn:Hm.
  - unfold parse_line. rewrite (classifier_on_match vt _ _ _ Hm). simpl.
    destruct (add_reference_match vt _ _ _ st m Hre Hm Hrep)
      as (st' & -> & Hrep' & Hfd & Hre').
    exists st'. auto.
  - exists st. rewrite (parse_line_no_match vt) by assumption. auto.
Qed.

Lemma parse_loop_represented (vt : bool) (lines : list (list ascii)) :
  Forall line_ok lines ->
  forall (fuel : nat) (st : state) (m : store),
    (length lines <= fuel)%nat ->
    fd st = Some (stream_of lines) ->
    regex st = Some (SC_RCONF_REGEX vt) ->
    represents st m ->
    exists st',
      parse_loop fuel st = Returns st' /\
      represents st' (fold_left (store_step vt) (buffers_of lines) m) /\
      fd st' = Some [] /\ regex st' = regex st.
Proof.
  induction 1 as [|l ls Hl Hls IH]; intros fuel st m Hfuel Hfd Hre Hrep.
  - exists st. destruct fuel; simpl; rewrite Hfd; simpl; auto.
  - destruct fuel as [|fuel]; [simpl in Hfuel; lia|].
    simpl. rewrite Hfd, stream_of_cons, (fgets_line _ _ Hl).
    destruct (parse_line_represented vt (l ++ [LF])
                (set_fd st (Some (stream_of ls))) m Hre Hrep)
      as (st1 & -> & Hrep1 & Hfd1 & Hre1).
    simpl. 
    destruct (IH fuel st1 (store_step vt m (l ++ [LF]))) as (st' & Hloop & H');
      [simpl in Hfuel; lia | exact Hfd1 | now rewrite Hre1 | exact Hrep1 |].
    exists st'. split; [exact Hloop|].
    destruct H' as (Hr & Hf & Hg). repeat split; auto. now rewrite Hg.
Qed.

(** The whole load: it returns 0 and leaves a table that holds the
    first binding of every key the lines define. *)
Lemma load_represented (env : environment) (st : state) (lines : list (list ascii)) :
  env_ok env -> Forall line_ok lines ->
  source_stream env st = Some (stream_of lines) ->
  exists st',
    SCRConfLoadReferenceConfigFile env st = Returns (0, st') /\
    represents st' (load_model (pcre_vt env) (buffers_of lines)).
Proof.
  intros (Hht & Hcomp & Hstudy) Hlines Hsrc.
  unfold SCRConfLoadReferenceConfigFile, SCRConfInitContextAndLocalResources.
  rewrite Hht, Hcomp, Hstudy. cbn [reference_conf_ht set_ht].
  set (st0 := set_ht st (Some (HashTableInit 128))).
  set (opened := match fd st0 with
                 | None => set_fd st0 (fopen_result env)
                 | Some _ => st0
                 end).
  assert (Hfd : fd opened = Some (stream_of lines)).
  { unfold opened. change (fd st0) with (fd st). unfold source_stream in Hsrc.
    destruct (fd st) as [s|] eqn:E; [|exact Hsrc].
    change (fd st0) with (fd st). now rewrite E. }
  assert (Hrep : represents opened ∅).
  { unfold opened. destruct (fd st0); apply represents_init. }
  rewrite Hfd. cbn [regex set_regex]. cbn [Z.eqb].
  set (st1 := set_regex opened (Some (SC_RCONF_REGEX (pcre_vt env)))).
  unfold SCRConfParseFile.
  destruct (parse_loop_represented (pcre_vt env) lines Hlines
              (length (default [] (fd st1))) st1 ∅)
    as (st' & -> & Hrep' & _); auto.
  - change (fd st1) with (fd opened). rewrite Hfd. apply stream_of_length.
  - simpl. exists (SCRConfDeInitLocalResources st'). split; [reflexivity|].
    exact Hrep'.
Qed.

Lemma load_scenario (vt : bool) (ls : list string) :
  Forall line_ok (List.map str ls) ->
  exists st,
    SCRConfLoadReferenceConfigFile (default_env vt)
      (initial_state (Some (source_of ls))) = Returns (0, st) /\
    represents st (load_model vt (buffers_of (List.map str ls))).
Proof.
  intros Hok.
  apply (load_represented (default_env vt) (initial_state (Some (source_of ls)))
           (List.map str ls)); auto.
  repeat split.
Qed.

Ltac lines_ok :=
  repeat (constructor; [split; [repeat constructor | simpl; lia]|]); constructor.

(** ** The model: first occurrence wins *)

Lemma directive_of_well_formed (vt : bool) (line name value : cstring) :
  well_formed_line vt line name value ->
  directive_of vt (line ++ [LF]) = Some (SCRConfStringToLowercase name, value).
Proof.
  intros [(head & sep & -> & Hhead & Hname & Hsepn & Hsep & Hvalue) [Hnl Hnul]].
  unfold directive_of. rewrite c_str_no_nul.
  2:{ apply Forall_app. split; [assumption | now repeat constructor]. }
  rewrite <- !app_assoc.
  assert (Hlf : holds (pcre_space vt) [LF]) by (repeat constructor; now destruct vt).
  assert (Hstop : stops pcre_dot [LF]) by reflexivity.
  now rewrite (match_directive_complete vt head name sep value [LF]).
Qed.

Lemma directive_ok_line (vt : bool) (d : directive) :
  directive_ok vt d -> line_ok (d_line d).
Proof. intros [[_ [Hnl _]] Hlen]. now split. Qed.

Lemma directive_ok_of (vt : bool) (d : directive) :
  directive_ok vt d ->
  directive_of vt (d_line d ++ [LF])
  = Some (SCRConfStringToLowercase (d_name d), d_value d).
Proof. intros [Hwf _]. now apply directive_of_well_formed. Qed.

Lemma insert_if_absent_keep (k k' v v' : cstring) (m : store) :
  m !! k = Some v -> insert_if_absent k' v' m !! k = Some v.
Proof.
  intros H. unfold insert_if_absent. destruct (m !! k') eqn:E; [exact H|].
  rewrite lookup_insert_ne; [exact H | congruence].
Qed.

Lemma store_step_keep (vt : bool) (b : list ascii) (k v : cstring) (m : store) :
  m !! k = Some v -> store_step vt m b !! k = Some v.
Proof.
  intros H. unfold store_step. destruct (directive_of vt b) as [[k' v']|]; [|exact H].
  now apply insert_if_absent_keep.
Qed.

Lemma load_keep (vt : bool) (bufs : list (list ascii)) (k v : cstring) (m : store) :
  m !! k = Some v -> fold_left (store_step vt) bufs m !! k = Some v.
Proof.
  revert m. induction bufs as [|b bufs IH]; intros m H; simpl; [exact H|].
  apply IH. now apply store_step_keep.
Qed.

Lemma load_absent (vt : bool) (bufs : list (list ascii)) (k : cstring) (m : store) :
  key_absent vt k bufs ->
  fold_left (store_step vt) bufs m !! k = m !! k.
Proof.
  intros H. revert m. induction H as [|b bufs Hb Hbufs IH]; intros m; simpl;
    [reflexivity|].
  rewrite IH. unfold store_step.
  destruct (directive_of vt b) as [[k' v']|] eqn:E; [|reflexivity].
  unfold insert_if_absent. destruct (m !! k'); [reflexivity|].
  apply lookup_insert_ne. now apply (Hb k' v').
Qed.

(** First occurrence wins. *)
Lemma load_first (vt : bool) (before after : list (list ascii)) (b : list ascii)
    (k v : cstring) :
  key_absent vt k before -> directive_of vt b = Some (k, v) ->
  load_model vt (before ++ b :: after) !! k = Some v.
Proof.
  intros Hbefore Hb. unfold load_model. rewrite fold_left_app. simpl.
  apply load_keep. unfold store_step at 1. rewrite Hb.
  unfold insert_if_absent. rewrite load_absent by assumption.
  rewrite lookup_empty. apply lookup_insert_eq.
Qed.

Lemma key_absent_directives (vt : bool) (k : list ascii) (ds : list directive) :
  Forall (directive_ok vt) ds ->
  Forall (fun e => SCRConfStringToLowercase (d_name e) <> k) ds ->
  key_absent vt k (buffers_of (List.map d_line ds)).
Proof.
  intros Hok Hne. induction ds as [|e ds IH]; [constructor|].
  inversion Hok; inversion Hne; subst. constructor; [|now apply IH].
  intros k' v' H. rewrite (directive_ok_of vt e) in H by assumption.
  now injection H as <- _.
Qed.

Ltac plain_ok :=
  split;
  [ split;
    [ exists (str "config reference: "), (str " ");
      split; [reflexivity|];
      split; [apply directive_head_plain|];
      split; [eexists; eexists; split; [reflexivity|];
              split; [reflexivity | repeat constructor]|];
      split; [discriminate|];
      split; [repeat constructor|];
      split; [eexists; eexists; split; reflexivity | repeat constructor]
    | split; repeat constructor ]
  | simpl; lia ].

(** ** The keys of the model *)

Lemma model_step_none (vt : bool) (m : store) (b : list ascii) (k : cstring) :
  store_step vt m b !! k = None <->
  m !! k = None /\ forall k' v', directive_of vt b = Some (k', v') -> k' <> k.
Proof.
  unfold store_step. destruct (directive_of vt b) as [[k0 v0]|].
  - unfold insert_if_absent. destruct (m !! k0) eqn:E0.
    + split.
      * intros H. split; [exact H|]. intros k' v' [= <- <-] ->. congruence.
      * now intros [H _].
    + destruct (decide (k0 = k)) as [-> | Hne].
      * rewrite lookup_insert_eq. split; [discriminate|].
        intros [_ H]. now contradiction (H k v0).
      * rewrite lookup_insert_ne by exact Hne. split.
        -- intros H. split; [exact H|]. now intros k' v' [= <- <-].
        -- now intros [H _].
  - split; [intros H; split; [exact H | discriminate] | now intros [H _]].
Qed.

Lemma model_fold_none (vt : bool) (bufs : list (list ascii)) (m : store) (k : cstring) :
  fold_left (store_step vt) bufs m !! k = None <->
  m !! k = None /\ key_absent vt k bufs.
Proof.
  revert m. induction bufs as [|b bufs IH]; intros m; simpl.
  - split; [intros H; split; [exact H | constructor] | now intros [H _]].
  - rewrite IH, model_step_none. split.
    + intros [[Hm Hb] Hbufs]. split; [exact Hm | now constructor].
    + intros [Hm Habs]. inversion Habs; subst. auto.
Qed.

Lemma model_none (vt : bool) (bufs : list (list ascii)) (k : cstring) :
  load_model vt bufs !! k = None <-> key_absent vt k bufs.
Proof.
  unfold load_model. rewrite model_fold_none, lookup_empty. tauto.
Qed.

Lemma model_fold_some (vt : bool) (bufs : list (list ascii)) (m : store)
    (k v : cstring) :
  fold_left (store_step vt) bufs m !! k = Some v ->
  m !! k = Some v \/ exists b, b ∈ bufs /\ directive_of vt b = Some (k, v).
Proof.
  revert m. induction bufs as [|b bufs IH]; intros m; simpl; [now left|].
  intros H. apply IH in H. destruct H as [H | (b' & Hb' & Hd)].
  - unfold store_step in H. destruct (directive_of vt b) as [[k0 v0]|] eqn:Hd;
      [|now left].
    unfold insert_if_absent in H. destruct (m !! k0) eqn:E0; [now left|].
    destruct (decide (k0 = k)) as [-> | Hne].
    + rewrite lookup_insert_eq in H. injection H as ->.
      right. exists b. split; [apply elem_of_cons; now left | exact Hd].
    + rewrite lookup_insert_ne in H by exact Hne. now left.
  - right. exists b'. split; [apply elem_of_cons; now right | exact Hd].
Qed.

Lemma model_some (vt : bool) (bufs : list (list ascii)) (k v : cstring) :
  load_model vt bufs !! k = Some v ->
  exists b, b ∈ bufs /\ directive_of vt b = Some (k, v).
Proof.
  intros H. apply model_fold_some in H. destruct H as [H | H]; [|exact H].
  now rewrite lookup_empty in H.
Qed.

Lemma model_size (vt : bool) (bufs : list (list ascii)) (m : store) :
  (size (fold_left (store_step vt) bufs m) <= size m + length bufs)%nat.
Proof.
  revert m. induction bufs as [|b bufs IH]; intros m; simpl; [lia|].
  specialize (IH (store_step vt m b)).
  assert (size (store_step vt m b) <= S (size m))%nat; [|lia].
  unfold store_step. destruct (directive_of vt b) as [[k0 v0]|]; [|lia].
  unfold insert_if_absent. destruct (m !! k0) eqn:E; [lia|].
  rewrite map_size_insert_None by exact E. lia.
Qed.

Lemma lookup_gives_iff (st : state) (m : store) (q v : cstring) :
  represents st m ->
  (lookup_gives st q v <-> m !! SCRConfStringToLowercase q = Some v).
Proof.
  intros Hrep. pose proof (get_reference_represented st m q Hrep) as Hget. split.
  - intros (p & ref & Hp & (t & i & Ht & Hin & Hheap) & Hurl).
    destruct (m !! SCRConfStringToLowercase q) as [v0|]; [|congruence].
    destruct Hget as (p0 & Hp0 & (t0 & i0 & _ & _ & Hheap0)).
    rewrite Hp in Hp0. injection Hp0 as <-. rewrite Hheap in Hheap0.
    injection Hheap0 as ->. simpl in Hurl. congruence.
  - intros Hm. rewrite Hm in Hget. destruct Hget as (p & Hp & Hst).
    exists p. eexists. split; [exact Hp|]. split; [exact Hst | reflexivity].
Qed.

Lemma lookup_fails_iff (st : state) (m : store) (q : cstring) :
  represents st m ->
  (lookup_fails st q <-> m !! SCRConfStringToLowercase q = None).
Proof.
  intros Hrep. pose proof (get_reference_represented st m q Hrep) as Hget.
  unfold lookup_fails. split.
  - intros H. destruct (m !! SCRConfStringToLowercase q); [|reflexivity].
    destruct Hget as (p & Hp & _). congruence.
  - intros Hm. now rewrite Hm in Hget.
Qed.

(** The keys of the model are the keys the buffers define, each once. *)
Lemma model_keys (vt : bool) (bufs : list (list ascii)) :
  exists keys : list (list ascii),
    NoDup keys /\
    (forall k, k ∈ keys <->
       exists b v, b ∈ bufs /\ directive_of vt b = Some (k, v)) /\
    size (load_model vt bufs) = length keys.
Proof.
  set (m := load_model vt bufs).
  exists ((map_to_list m).*1).
  split; [apply NoDup_fst_map_to_list|]. split.
  - intros k. rewrite list_elem_of_fmap. split.
    + intros ([k' v] & -> & Hkv). apply elem_of_map_to_list in Hkv. simpl.
      destruct (model_some _ _ _ _ Hkv) as (b & Hb & Hd). eauto.
    + intros (b & v & Hb & Hd).
      destruct (m !! k) as [v0|] eqn:Hm.
      * exists (k, v0). split; [reflexivity | now apply elem_of_map_to_list].
      * apply model_none in Hm. unfold key_absent in Hm.
        rewrite Forall_forall in Hm. now contradiction (Hm b Hb k v Hd).
  - now rewrite length_fmap, length_map_to_list.
Qed.

(** A line that the pattern rejects defines no key. *)
Lemma key_absent_rejected (vt : bool) (k : cstring) (ls : list (list ascii)) :
  Forall (fun l => match_directive vt (c_str (l ++ [LF])) = None) ls ->
  key_absent vt k (buffers_of ls).
Proof.
  intros H. unfold key_absent, buffers_of. apply Forall_map.
  eapply Forall_impl; [exact H|]. intros l Hl k' v' Hd.
  unfold directive_of in Hd. simpl in Hl. now rewrite Hl in Hd.
Qed.

(** The buffers of a source of directives. *)
Lemma buffer_of_directives (ds : list directive) (b : list ascii) :
  b ∈ buffers_of (List.map d_line ds) <->
  exists d, d ∈ ds /\ b = d_line d ++ [LF].
Proof.
  unfold buffers_of. rewrite list_elem_of_In, in_map_iff. split.
  - intros (l & <- & Hl). apply in_map_iff in Hl. destruct Hl as (d & <- & Hd).
    exists d. split; [now apply list_elem_of_In | reflexivity].
  - intros (d & Hd & ->). exists (d_line d). split; [reflexivity|].
    apply in_map_iff. exists d. split; [reflexivity | now apply list_elem_of_In].
Qed.

Lemma Forall_repeat_char (P : ascii -> Prop) (c : ascii) (n : nat) :
  P c -> Forall P (repeat c n).
Proof. intros H. induction n; simpl; constructor; auto. Qed.

(** ** Malformed lines *)

(** C3, as stated, fails for a line longer than the buffer of
    [SCRConfParseFile]: the line of 1023 number signs followed by the
    text of a directive fails the grammar, and is a comment for the
    classifier, yet the load of the source made of this one line stores
    an entry, while the load of the empty source stores none: [fgets]
    hands the text of the directive over in a buffer of its own. *)
Lemma long_malformed_line_adds_an_entry :
  match_directive true (c_str (long_comment ++ [LF])) = None /\
  SCRConfIsLineBlankOrComment (long_comment ++ [LF]) = 1 /\
  (exists st0,
     SCRConfLoadReferenceConfigFile (default_env true)
       (initial_state (Some (stream_of []))) = Returns (0, st0) /\
     table_count st0 = Some 0) /\
  (exists st p,
     SCRConfLoadReferenceConfigFile (default_env true)
       (initial_state (Some (stream_of [long_comment]))) = Returns (0, st) /\
     table_count st = Some 1 /\
     SCRConfGetReference (Some (str "two")) st = Returns (Some p, st) /\
     heap st !! p = Some (mkRef (str "two") (Some (str "http://y")))).
Proof.
  split; [vm_compute; reflexivity|].
  split; [vm_compute; reflexivity|].
  split.
  - eexists. split; [vm_compute; reflexivity|]. vm_compute. reflexivity.
  - eexists. exists 0%nat.
    split; [vm_compute; reflexivity|].
    split; [vm_compute; reflexivity|].
    split; [vm_compute; reflexivity|].
    vm_compute. reflexivity.
Qed.

(** C3, amended.  A buffer that the pattern rejects leaves the state as
    it is, the entry count included, and the loop goes on with the rest
    of the stream.  Take a source whose lines are at most 1023 bytes long
    with their newline, so that each line is read as one buffer: taking a
    line that the pattern rejects out of the source does not change the
    store that the load builds, and the load still returns 0; and when
    one line of the source is a well-formed directive and the pattern
    rejects every other line, however many there are and wherever they
    stand, [count] is 1, the name of the directive is found with its
    value, and no other name is found.  So it is for the five lines of the
    second test fixture, and for four lines that keep one invalid line of
    each kind. *)
Theorem malformed_line_is_skipped :
  (forall (vt : bool) (st : state) (s line rest : list ascii) (fuel : nat),
     regex st = Some (SC_RCONF_REGEX vt) ->
     fd st = Some s -> fgets 1024 s = Some (line, rest) ->
     match_directive vt (c_str line) = None ->
     parse_line line (set_fd st (Some rest)) = Returns (set_fd st (Some rest)) /\
     table_count (set_fd st (Some rest)) = table_count st /\
     parse_loop (S fuel) st = parse_loop fuel (set_fd st (Some rest)))
  /\
  (forall (env : environment) (st : state) (l1 l2 : list (list ascii))
          (bad : list ascii),
     env_ok env -> Forall line_ok (l1 ++ bad :: l2) ->
     match_directive (pcre_vt env) (c_str (bad ++ [LF])) = None ->
     source_stream env st = Some (stream_of (l1 ++ bad :: l2)) ->
     exists st',
       SCRConfLoadReferenceConfigFile env st = Returns (0, st') /\
       represents st' (load_model (pcre_vt env) (buffers_of (l1 ++ l2))))
  /\
  (forall vt : bool,
     exists st',
       SCRConfLoadReferenceConfigFile (default_env vt)
         (initial_state (Some FD02)) = Returns (0, st') /\
       table_count st' = Some 1 /\
       lookup_gives st' (str "one") (str "http://www.one.com") /\
       lookup_fails st' (str "two") /\ lookup_fails st' (str "three") /\
       lookup_fails st' (str "four") /\ lookup_fails st' (str "five"))
  /\
  (forall vt : bool,
     exists st',
       SCRConfLoadReferenceConfigFile (default_env vt)
         (initial_state (Some scenario_B)) = Returns (0, st') /\
       table_count st' = Some 1 /\
       lookup_gives st' (str "one") (str "http://www.one.com") /\
       lookup_fails st' (str "five") /\ lookup_fails st' (str "four") /\
       lookup_fails st' (str "two"))
  /\
  (forall (env : environment) (st : state) (l1 l2 : list (list ascii))
          (d : directive),
     env_ok env -> directive_ok (pcre_vt env) d ->
     Forall line_ok (l1 ++ l2) ->
     Forall (fun l => match_directive (pcre_vt env) (c_str (l ++ [LF])) = None)
            (l1 ++ l2) ->
     source_stream env st = Some (stream_of (l1 ++ d_line d :: l2)) ->
     exists st',
       SCRConfLoadReferenceConfigFile env st = Returns (0, st') /\
       table_count st' = Some 1 /\
       lookup_gives st' (d_name d) (d_value d) /\
       (forall q : cstring,
          ~ case_insensitively_equal q (d_name d) -> lookup_fails st' q)).
Proof.
  assert (Hfail : forall st m q,
            represents st m -> m !! SCRConfStringToLowercase q = None ->
            lookup_fails st q).
  { intros st m q Hrep Hm. pose proof (get_reference_represented st m q Hrep) as H.
    now rewrite Hm in H. }
  assert (Hgive : forall st m q v,
            represents st m -> m !! SCRConfStringToLowercase q = Some v ->
            lookup_gives st q v).
  { intros st m q v Hrep Hm.
    destruct (lookup_gives_represented st m q v Hrep Hm) as (p & Hget & Hst).
    exists p. eexists. split; [exact Hget|]. split; [exact Hst | reflexivity]. }
  split; [|split; [|split; [|split]]].
  - intros vt st s line rest fuel Hre Hfd Hfgets Hm.
    assert (Hline : parse_line line (set_fd st (Some rest))
                    = Returns (set_fd st (Some rest)))
      by now apply (parse_line_no_match vt).
    split; [exact Hline|]. split; [reflexivity|].
    simpl. now rewrite Hfd, Hfgets, Hline.
  - intros env st l1 l2 bad Henv Hlines Hbad Hsrc.
    destruct (load_represented env st _ Henv Hlines Hsrc) as (st' & Hload & Hrep).
    exists st'. split; [exact Hload|].
    rewrite buffers_of_app in Hrep. simpl in Hrep.
    unfold load_model in *. rewrite fold_left_app in Hrep. simpl in Hrep.
    rewrite buffers_of_app, fold_left_app.
    unfold store_step at 2 in Hrep. unfold directive_of in Hrep.
    now rewrite Hbad in Hrep.
  - intros vt. destruct (load_scenario vt
      ["config reference: one http://www.one.com";
       "config_ reference: two http://www.two.com";
       "config reference_: three http://www.three.com";
       "config reference: four";
       "config reference five http://www.five.com"]%string)
      as (st' & Hload & Hrep); [lines_ok|].
    exists st'. split; [exact Hload|].
    split; [rewrite (count_represented _ _ Hrep); destruct vt; vm_compute; reflexivity|].
    split; [apply (Hgive _ _ _ _ Hrep); destruct vt; vm_compute; reflexivity|].
    repeat split; apply (Hfail _ _ _ Hrep); destruct vt; vm_compute; reflexivity.
  - intros vt. destruct (load_scenario vt
      ["config reference: one http://www.one.com";
       "config reference five http://www.five.com";
       "config reference: four";
       "config_ reference: two http://www.two.com"]%string)
      as (st' & Hload & Hrep); [lines_ok|].
    exists st'. split; [exact Hload|].
    split; [rewrite (count_represented _ _ Hrep); destruct vt; vm_compute; reflexivity|].
    split; [apply (Hgive _ _ _ _ Hrep); destruct vt; vm_compute; reflexivity|].
    repeat split; apply (Hfail _ _ _ Hrep); destruct vt; vm_compute; reflexivity.
  - intros env st l1 l2 d Henv Hd Hlines Hbad Hsrc.
    apply Forall_app in Hlines. destruct Hlines as [Hl1 Hl2].
    apply Forall_app in Hbad. destruct Hbad as [Hb1 Hb2].
    assert (Hall : Forall line_ok (l1 ++ d_line d :: l2)).
    { apply Forall_app. split; [exact Hl1|].
      constructor; [now apply (directive_ok_line (pcre_vt env)) | exact Hl2]. }
    destruct (load_represented env st _ Henv Hall Hsrc) as (st' & Hload & Hrep).
    assert (Hmodel : load_model (pcre_vt env) (buffers_of (l1 ++ d_line d :: l2))
                     = {[ SCRConfStringToLowercase (d_name d) := d_value d ]}).
    { apply map_eq. intros k.
      destruct (decide (k = SCRConfStringToLowercase (d_name d))) as [-> | Hne].
      - rewrite lookup_singleton_eq, buffers_of_app. simpl.
        apply load_first; [now apply key_absent_rejected | now apply directive_ok_of].
      - rewrite lookup_singleton_ne by congruence. apply model_none.
        rewrite buffers_of_app. unfold key_absent. apply Forall_app.
        split; [now apply key_absent_rejected|]. simpl.
        constructor; [|now apply key_absent_rejected].
        intros k' v' Hdir. rewrite (directive_ok_of _ d Hd) in Hdir.
        injection Hdir as <- _. congruence. }
    rewrite Hmodel in Hrep. exists st'. split; [exact Hload|].
    split; [|split].
    + rewrite (count_represented _ _ Hrep). now rewrite map_size_singleton.
    + apply (Hgive _ _ _ _ Hrep). apply lookup_singleton_eq.
    + intros q Hq. apply (Hfail _ _ _ Hrep). apply lookup_singleton_ne.
      intros E. apply Hq. unfold case_insensitively_equal. congruence.
Qed.

Lemma malformed_line_is_skipped_witness :
  parse_loop 1
    (mkState ∅ (Some (HashTableInit 128))
       (Some (str "config reference: four" ++ [LF]))
       (Some (SC_RCONF_REGEX true)))
  = parse_loop 0
      (set_fd
         (mkState ∅ (Some (HashTableInit 128))
            (Some (str "config reference: four" ++ [LF]))
            (Some (SC_RCONF_REGEX true)))
         (Some []))
  /\
  exists st',
    SCRConfLoadReferenceConfigFile (default_env true)
      (initial_state
         (Some (stream_of
                  ([str "config reference: one http://www.one.com"] ++
                   str "config reference: four" ::
                   [str "config reference: two http://www.two.com"]))))
    = Returns (0, st') /\
    represents st'
      (load_model (pcre_vt (default_env true))
         (buffers_of
            ([str "config reference: one http://www.one.com"] ++
             [str "config reference: two http://www.two.com"]))).
Proof.
  split.
  - apply (proj2 (proj2 (proj1 malformed_line_is_skipped true
                           (mkState ∅ (Some (HashTableInit 128))
                              (Some (str "config reference: four" ++ [LF]))
                              (Some (SC_RCONF_REGEX true)))
                           (str "config reference: four" ++ [LF])
                           (str "config reference: four" ++ [LF]) [] 0%nat
                           eq_refl eq_refl eq_refl eq_refl))).
  - apply (proj1 (proj2 malformed_line_is_skipped) (default_env true) _
             [str "config reference: one http://www.one.com"]
             [str "config reference: two http://www.two.com"]
             (str "config reference: four")).
    + repeat split.
    + lines_ok.
    + vm_compute. reflexivity.
    + reflexivity.
Defined.

(** ** Loading and looking up *)

(** C1, amended.  Take a source whose lines are well-formed directives,
    each at most 1023 bytes long with its newline.  For a line that is
    the first of the source to define its name, up to ASCII case, the
    load returns 0 and the lookup of the name, in any ASCII casing,
    returns a stored entry whose url is the value of that line. *)
Theorem load_then_lookup (env : environment) (st : state)
    (before after : list directive) (d : directive) (q : list ascii) :
  env_ok env ->
  Forall (directive_ok (pcre_vt env)) (before ++ d :: after) ->
  Forall (fun e => ~ case_insensitively_equal (d_name e) (d_name d)) before ->
  source_stream env st
    = Some (stream_of (List.map d_line (before ++ d :: after))) ->
  case_insensitively_equal q (d_name d) ->
  exists st',
    SCRConfLoadReferenceConfigFile env st = Returns (0, st') /\
    lookup_gives st' q (d_value d).
Proof.
  intros Henv Hok Hfirst Hsrc Hq.
  destruct (load_represented env st (List.map d_line (before ++ d :: after)))
    as (st' & Hload & Hrep); auto.
  { apply Forall_map. eapply Forall_impl; [exact Hok|].
    intros e. apply directive_ok_line. }
  exists st'. split; [exact Hload|].
  apply Forall_app in Hok. destruct Hok as [Hbefore Hrest].
  inversion Hrest as [|? ? Hd Hafter]; subst.
  rewrite List.map_app, buffers_of_app in Hrep. simpl in Hrep.
  destruct (lookup_gives_represented st' _ q (d_value d) Hrep) as (p & Hget & Hst).
  - rewrite Hq. apply load_first; [|now apply directive_ok_of].
    now apply key_absent_directives.
  - exists p. eexists. split; [exact Hget|]. split; [exact Hst | reflexivity].
Qed.

Lemma one_a_ok : directive_ok true (plain_directive "one" "http://a").
Proof. plain_ok. Qed.

Lemma one_b_ok : directive_ok true (plain_directive "one" "http://b").
Proof. plain_ok. Qed.

(** C1, as stated, fails: of two lines that define the same name, the
    lookup gives the value of the first, not that of the second. *)
Lemma second_definition_is_not_returned : ~ every_line_value_is_returned.
Proof.
  intros H.
  destruct (H (default_env true)
              (initial_state
                 (Some (stream_of
                          (List.map d_line
                             [plain_directive "one" "http://a";
                              plain_directive "one" "http://b"]))))
              [plain_directive "one" "http://a"; plain_directive "one" "http://b"]
              (plain_directive "one" "http://b") (str "one"))
    as (st' & Hload & p & ref & Hget & Hst & Hurl).
  - repeat split.
  - repeat constructor; [apply one_a_ok | apply one_b_ok].
  - reflexivity.
  - apply elem_of_cons. right. apply elem_of_cons. now left.
  - reflexivity.
  - vm_compute in Hload. injection Hload as <-.
    vm_compute in Hget. injection Hget as <-.
    destruct Hst as (t & i & _ & _ & Hheap).
    vm_compute in Hheap. injection Hheap as <-.
    vm_compute in Hurl. discriminate Hurl.
Qed.

Lemma load_then_lookup_witness :
  exists st',
    SCRConfLoadReferenceConfigFile (default_env true)
      (initial_state
         (Some (stream_of
                  (List.map d_line
                     ([] ++ plain_directive "cve"
                              "http://cve.mitre.org/cgi-bin/cvename.cgi?name=" :: [])))))
    = Returns (0, st') /\
    lookup_gives st' (str "CVE")
      (d_value (plain_directive "cve"
                  "http://cve.mitre.org/cgi-bin/cvename.cgi?name=")).
Proof.
  apply (load_then_lookup (default_env true) _ [] []
           (plain_directive "cve" "http://cve.mitre.org/cgi-bin/cvename.cgi?name=")
           (str "CVE")).
  - repeat split.
  - constructor; [plain_ok | constructor].
  - constructor.
  - reflexivity.
  - reflexivity.
Defined.

(** ** Duplicates *)

Lemma long_directive_well_formed :
  well_formed_line true (d_line long_directive) (d_name long_directive)
    (d_value long_directive).
Proof.
  split; [|split].
  - exists (str "config reference: "), (str " ").
    split; [reflexivity|].
    split; [apply directive_head_plain|].
    split; [eexists; eexists; split; [reflexivity|];
            split; [reflexivity | repeat constructor]|].
    split; [discriminate|].
    split; [repeat constructor|].
    split; [eexists; eexists; split; reflexivity|].
    now apply Forall_repeat_char.
  - apply Forall_app. split; [repeat constructor | now apply Forall_repeat_char].
  - apply Forall_app. split; [repeat constructor | now apply Forall_repeat_char].
Qed.

(** C2, as stated, fails for a line longer than the buffer of
    [SCRConfParseFile]: of two well-formed directive lines that define
    the same name, the first being 1032 bytes long, the load stores one
    entry, but its url is the value of the first line cut after 1001
    bytes, not that value. *)
Lemma long_first_definition_is_cut :
  well_formed_line true (d_line long_directive) (d_name long_directive)
    (d_value long_directive) /\
  directive_ok true (plain_directive "ONE" "http://b") /\
  case_insensitively_equal (d_name long_directive)
    (d_name (plain_directive "ONE" "http://b")) /\
  exists st p ref,
    SCRConfLoadReferenceConfigFile (default_env true)
      (initial_state
         (Some (stream_of [d_line long_directive;
                           d_line (plain_directive "ONE" "http://b")])))
      = Returns (0, st) /\
    SCRConfGetReference (Some (d_name long_directive)) st = Returns (Some p, st) /\
    heap st !! p = Some ref /\
    url ref = Some (repeat "a"%char 1001) /\
    url ref <> Some (d_value long_directive).
Proof.
  split; [apply long_directive_well_formed|].
  split; [plain_ok|].
  split; [reflexivity|].
  eexists. exists 0%nat. eexists.
  split; [vm_compute; reflexivity|].
  split; [vm_compute; reflexivity|].
  split; [vm_compute; reflexivity|].
  split; [vm_compute; reflexivity|].
  vm_compute. discriminate.
Qed.

(** C2, amended.  Take a source whose lines are at most 1023 bytes long
    with their newline.  Let two well-formed directive lines of it define
    the same name, in the same or a different ASCII casing, the first of
    them being the first line of the source to define it.  After the load
    the table holds exactly one entry for that name, the lookup under
    either casing returns that entry, and its url is the value of the
    first line.  When the source is these two lines, [count] is 1.  When
    every line of the source is a well-formed directive, [count] is the
    number of names that differ up to ASCII case, 3 for five lines with
    three distinct names and two duplicates, as for the five lines of the
    first test fixture. *)
Theorem duplicate_name_first_wins :
  (forall (env : environment) (st : state) (l0 l1 l2 : list (list ascii))
          (a b : directive),
     env_ok env ->
     directive_ok (pcre_vt env) a -> directive_ok (pcre_vt env) b ->
     case_insensitively_equal (d_name a) (d_name b) ->
     Forall line_ok (l0 ++ d_line a :: l1 ++ d_line b :: l2) ->
     key_absent (pcre_vt env) (SCRConfStringToLowercase (d_name a)) (buffers_of l0) ->
     source_stream env st
       = Some (stream_of (l0 ++ d_line a :: l1 ++ d_line b :: l2)) ->
     exists st' p,
       SCRConfLoadReferenceConfigFile env st = Returns (0, st') /\
       SCRConfGetReference (Some (d_name a)) st' = Returns (Some p, st') /\
       SCRConfGetReference (Some (d_name b)) st' = Returns (Some p, st') /\
       stored st' p (mkRef (SCRConfStringToLowercase (d_name a)) (Some (d_value a))) /\
       (forall p' ref,
          stored st' p' ref ->
          system ref = SCRConfStringToLowercase (d_name a) -> p' = p))
  /\
  (forall (env : environment) (st : state) (a b : directive),
     env_ok env ->
     directive_ok (pcre_vt env) a -> directive_ok (pcre_vt env) b ->
     case_insensitively_equal (d_name a) (d_name b) ->
     source_stream env st = Some (stream_of [d_line a; d_line b]) ->
     exists st',
       SCRConfLoadReferenceConfigFile env st = Returns (0, st') /\
       table_count st' = Some 1 /\
       lookup_gives st' (d_name b) (d_value a))
  /\
  (forall vt : bool,
     exists st',
       SCRConfLoadReferenceConfigFile (default_env vt)
         (initial_state (Some FD01)) = Returns (0, st') /\
       table_count st' = Some 3)
  /\
  (forall (env : environment) (st : state) (ds : list directive)
          (names : list (list ascii)),
     env_ok env -> Forall (directive_ok (pcre_vt env)) ds ->
     NoDup names ->
     (forall k, k ∈ names <->
        exists d, d ∈ ds /\ SCRConfStringToLowercase (d_name d) = k) ->
     source_stream env st = Some (stream_of (List.map d_line ds)) ->
     exists st',
       SCRConfLoadReferenceConfigFile env st = Returns (0, st') /\
       table_count st' = Some (Z.of_nat (length names))).
Proof.
  split; [|split; [|split]].
  - intros env st l0 l1 l2 a b Henv Ha Hb Hab Hlines Habsent Hsrc.
    destruct (load_represented env st _ Henv Hlines Hsrc) as (st' & Hload & Hrep).
    assert (Hm : load_model (pcre_vt env)
                   (buffers_of (l0 ++ d_line a :: l1 ++ d_line b :: l2))
                 !! SCRConfStringToLowercase (d_name a) = Some (d_value a)).
    { rewrite buffers_of_app. simpl.
      apply load_first; [assumption | now apply directive_ok_of]. }
    destruct (lookup_gives_represented st' _ (d_name a) (d_value a) Hrep Hm)
      as (p & Hget & Hst).
    destruct (lookup_gives_represented st' _ (d_name b) (d_value a) Hrep)
      as (p' & Hget' & Hst'); [now rewrite <- Hab|].
    assert (p' = p) as ->.
    { apply (stored_unique st' _ p' p _ _ Hrep Hst' Hst). simpl. now rewrite Hab. }
    exists st', p. repeat split; auto.
    intros p'' ref Hst'' Hsys. exact (stored_unique st' _ p'' p _ _ Hrep Hst'' Hst Hsys).
  - intros env st a b Henv Ha Hb Hab Hsrc.
    assert (Hlines : Forall line_ok [d_line a; d_line b]).
    { constructor; [now apply (directive_ok_line (pcre_vt env))|].
      constructor; [now apply (directive_ok_line (pcre_vt env)) | constructor]. }
    destruct (load_represented env st _ Henv Hlines Hsrc) as (st' & Hload & Hrep).
    assert (Hmodel : load_model (pcre_vt env) (buffers_of [d_line a; d_line b])
                     = {[ SCRConfStringToLowercase (d_name a) := d_value a ]}).
    { unfold load_model. simpl. unfold store_step.
      rewrite (directive_ok_of _ a Ha), (directive_ok_of _ b Hb).
      unfold insert_if_absent. rewrite lookup_empty.
      rewrite <- Hab, lookup_insert_eq. reflexivity. }
    rewrite Hmodel in Hrep. exists st'. split; [exact Hload|]. split.
    + rewrite (count_represented _ _ Hrep). now rewrite map_size_singleton.
    + destruct (lookup_gives_represented st' _ (d_name b) (d_value a) Hrep)
        as (p & Hget & Hst).
      * rewrite <- Hab. apply lookup_singleton_eq.
      * exists p. eexists. split; [exact Hget|]. split; [exact Hst | reflexivity].
  - intros vt. destruct (load_scenario vt
      ["config reference: one http://www.one.com";
       "config reference: two http://www.two.com";
       "config reference: three http://www.three.com";
       "config reference: one http://www.one.com";
       "config reference: three http://www.three.com"]%string)
      as (st' & Hload & Hrep); [lines_ok|].
    exists st'. split; [exact Hload|].
    rewrite (count_represented _ _ Hrep). destruct vt; vm_compute; reflexivity.
  - intros env st ds names Henv Hok Hnodup Hnames Hsrc.
    assert (Hlines : Forall line_ok (List.map d_line ds)).
    { apply Forall_map. eapply Forall_impl; [exact Hok|].
      intros e. apply directive_ok_line. }
    destruct (load_represented env st _ Henv Hlines Hsrc) as (st' & Hload & Hrep).
    exists st'. split; [exact Hload|].
    rewrite (count_represented _ _ Hrep).
    destruct (model_keys (pcre_vt env) (buffers_of (List.map d_line ds)))
      as (keys & Hkeys & Hin & ->).
    do 2 f_equal. apply Permutation_length.
    apply NoDup_Permutation; [exact Hkeys | exact Hnodup|].
    intros k. rewrite Hin, Hnames. split.
    + intros (b & v & Hb & Hdir). apply buffer_of_directives in Hb.
      destruct Hb as (d & Hd & ->). exists d. split; [exact Hd|].
      rewrite Forall_forall in Hok.
      rewrite (directive_ok_of _ d (Hok d Hd)) in Hdir. now injection Hdir as -> _.
    + intros (d & Hd & <-). exists (d_line d ++ [LF]), (d_value d).
      split; [apply buffer_of_directives; eauto|].
      rewrite Forall_forall in Hok. now apply directive_ok_of, Hok.
Qed.

Lemma duplicate_name_first_wins_witness :
  (exists st' p,
     SCRConfLoadReferenceConfigFile (default_env true)
       (initial_state
          (Some (stream_of
                   ([str "# references"] ++
                    d_line (plain_directive "one" "http://a") ::
                    [str "config reference: four"] ++
                    d_line (plain_directive "ONE" "http://b") :: []))))
     = Returns (0, st') /\
     SCRConfGetReference (Some (d_name (plain_directive "one" "http://a"))) st'
     = Returns (Some p, st') /\
     SCRConfGetReference (Some (d_name (plain_directive "ONE" "http://b"))) st'
     = Returns (Some p, st') /\
     stored st' p
       (mkRef (SCRConfStringToLowercase (d_name (plain_directive "one" "http://a")))
              (Some (d_value (plain_directive "one" "http://a")))) /\
     (forall p' ref,
        stored st' p' ref ->
        system ref
        = SCRConfStringToLowercase (d_name (plain_directive "one" "http://a")) ->
        p' = p))
  /\
  (exists st',
     SCRConfLoadReferenceConfigFile (default_env true)
       (initial_state
          (Some (stream_of [d_line (plain_directive "one" "http://a");
                            d_line (plain_directive "ONE" "http://b")])))
     = Returns (0, st') /\
     table_count st' = Some 1 /\
     lookup_gives st' (d_name (plain_directive "ONE" "http://b"))
       (d_value (plain_directive "one" "http://a"))).
Proof.
  split.
  - apply (proj1 duplicate_name_first_wins (default_env true) _
             [str "# references"] [str "config reference: four"] []
             (plain_directive "one" "http://a") (plain_directive "ONE" "http://b")).
    + repeat split.
    + plain_ok.
    + plain_ok.
    + reflexivity.
    + lines_ok.
    + constructor; [|constructor]. intros k' v' H. vm_compute in H. discriminate H.
    + reflexivity.
  - apply (proj1 (proj2 duplicate_name_first_wins) (default_env true) _
             (plain_directive "one" "http://a") (plain_directive "ONE" "http://b")).
    + repeat split.
    + plain_ok.
    + plain_ok.
    + reflexivity.
    + reflexivity.
Defined.

(** ** What the value capture keeps *)

(** C7, evaluated.  For the line [config reference: one
    http://www.one.com] followed by two spaces and the newline, the url
    that is extracted, and stored, keeps the two spaces; and when only
    whitespace follows the name, the url is a single space. *)
Theorem value_keeps_trailing_whitespace (vt : bool) :
  match_directive vt (str "config reference: one http://www.one.com  " ++ [LF])
    = Some (str "one", str "http://www.one.com  ")
  /\
  (exists st,
     SCRConfLoadReferenceConfigFile (default_env vt)
       (initial_state
          (Some (source_of ["config reference: one http://www.one.com  "%string])))
       = Returns (0, st) /\
     lookup_gives st (str "one") (str "http://www.one.com  "))
  /\
  match_directive vt (str "config reference: one  " ++ [LF])
    = Some (str "one", str " ").
Proof.
  split; [destruct vt; vm_compute; reflexivity|].
  split; [|destruct vt; vm_compute; reflexivity].
  destruct (load_represented (default_env vt)
              (initial_state
                 (Some (source_of ["config reference: one http://www.one.com  "%string])))
              [str "config reference: one http://www.one.com  "])
    as (st & Hload & Hrep).
  - repeat split.
  - constructor; [split; [repeat constructor | simpl; lia] | constructor].
  - reflexivity.
  - exists st. split; [exact Hload|].
    destruct (lookup_gives_represented st _ (str "one") (str "http://www.one.com  ") Hrep)
      as (p & Hget & Hst).
    + destruct vt; vm_compute; reflexivity.
    + exists p. eexists. split; [exact Hget|]. split; [exact Hst | reflexivity].
Qed.


(** * Further properties of the code *)

(** ** Lowercasing *)

Lemma tolower_not_upper (c : ascii) : isupper (tolower c) = false.
Proof. ascii_cases c; reflexivity. Qed.

Lemma tolower_fixed (c : ascii) : isupper c = false -> tolower c = c.
Proof. unfold tolower. now intros ->. Qed.

Lemma tolower_idempotent (c : ascii) : tolower (tolower c) = tolower c.
Proof. apply tolower_fixed, tolower_not_upper. Qed.

Lemma lowercase_idempotent (s : cstring) :
  SCRConfStringToLowercase (SCRConfStringToLowercase s) = SCRConfStringToLowercase s.
Proof.
  unfold SCRConfStringToLowercase. rewrite List.map_map.
  apply List.map_ext. intros c. apply tolower_idempotent.
Qed.

(** X1. [SCRConfStringToLowercase] keeps the length of the string, leaves
    no uppercase ASCII letter in it, changes nothing in a string that has
    none, a byte outside ASCII for one, and applied twice gives what it
    gives applied once. *)
Theorem lowercase_normalizes (s : cstring) :
  length (SCRConfStringToLowercase s) = length s /\
  Forall (fun c => isupper c = false) (SCRConfStringToLowercase s) /\
  (Forall (fun c => isupper c = false) s -> SCRConfStringToLowercase s = s) /\
  (forall c, 128 <= code c -> tolower c = c) /\
  SCRConfStringToLowercase (SCRConfStringToLowercase s) = SCRConfStringToLowercase s.
Proof.
  split; [apply List.length_map|].
  split.
  { unfold SCRConfStringToLowercase. apply Forall_map, Forall_forall.
    intros c _. apply tolower_not_upper. }
  split.
  { unfold SCRConfStringToLowercase.
    induction 1 as [|c l Hc Hl IH]; simpl; [reflexivity|].
    now rewrite IH, tolower_fixed. }
  split; [|apply lowercase_idempotent].
  intros c Hc. apply tolower_fixed. unfold isupper.
  destruct (code c <=? 90) eqn:E; [apply Z.leb_le in E; lia|].
  apply andb_false_r.
Qed.

Lemma lowercase_normalizes_witness :
  SCRConfStringToLowercase (str "cve-2010") = str "cve-2010".
Proof.
  apply (proj1 (proj2 (proj2 (lowercase_normalizes (str "cve-2010"))))).
  repeat constructor.
Defined.

(** ** The hash callback *)

Lemma hash_sum_lowercase (s : cstring) (h : Z) :
  hash_sum (SCRConfStringToLowercase s) h = hash_sum s h.
Proof.
  revert h. induction s as [|c s IH]; intros h; simpl; [reflexivity|].
  unfold SCRConfStringToLowercase in IH. now rewrite tolower_idempotent, IH.
Qed.

Lemma hash_sum_range (s : cstring) (h : Z) :
  0 <= h < uint32_max -> 0 <= hash_sum s h < uint32_max.
Proof.
  revert h. induction s as [|c s IH]; intros h Hh; simpl; [exact Hh|].
  apply IH. apply Z.mod_pos_bound. reflexivity.
Qed.

(** X2. For a table with at least one bucket, [SCRConfReferenceHashFunc]
    names a bucket of the table; the sum it takes never leaves the range
    of [uint32_t]; and the bucket depends on the key alone, and on the key
    up to ASCII case. *)
Theorem hash_names_a_bucket (array_size : Z) (ref : SCRConfReference) :
  0 < array_size ->
  0 <= SCRConfReferenceHashFunc array_size ref < array_size /\
  0 <= hash_sum (system ref) 0 < uint32_max /\
  (forall ref' : SCRConfReference,
     case_insensitively_equal (system ref) (system ref') ->
     SCRConfReferenceHashFunc array_size ref
     = SCRConfReferenceHashFunc array_size ref').
Proof.
  intros Hsize. split; [apply Z.mod_pos_bound, Hsize|].
  split; [apply hash_sum_range; split; [lia | reflexivity]|].
  intros ref' Heq. unfold SCRConfReferenceHashFunc.
  rewrite <- (hash_sum_lowercase (system ref)), <- (hash_sum_lowercase (system ref')).
  unfold case_insensitively_equal in Heq. now rewrite Heq.
Qed.

Lemma hash_names_a_bucket_witness :
  SCRConfReferenceHashFunc 128 (mkRef (str "CVE") None)
  = SCRConfReferenceHashFunc 128 (mkRef (str "cve") (Some (str "http://cve.mitre.org/"))).
Proof.
  apply (proj2 (proj2 (hash_names_a_bucket 128 (mkRef (str "CVE") None) eq_refl))).
  reflexivity.
Defined.

Lemma compare_zero_or_one (d1 d2 : option SCRConfReference) :
  SCRConfReferenceHashCompareFunc d1 d2 = 0 \/
  SCRConfReferenceHashCompareFunc d1 d2 = 1.
Proof.
  unfold SCRConfReferenceHashCompareFunc. destruct d1, d2; auto.
  destruct (_ && _); auto.
Qed.

(** X3. The compare callback answers 0 when one of the two pointers is
    NULL.  On entries it is a partial equivalence: it answers alike in
    both directions, it passes through a third entry, and an entry that
    it reports equal to some entry it reports equal to itself; so it does
    every entry that [SCRConfAllocSCRConfReference] returns, whose
    [system] is never NULL.  It does not look at the url, and two entries
    it reports equal are in the same bucket for the hash callback. *)
Theorem compare_agrees_with_hash (ref1 ref2 : SCRConfReference) :
  SCRConfReferenceHashCompareFunc None (Some ref2) = 0 /\
  SCRConfReferenceHashCompareFunc (Some ref1) None = 0 /\
  SCRConfReferenceHashCompareFunc (Some ref1) (Some ref2)
  = SCRConfReferenceHashCompareFunc (Some ref2) (Some ref1) /\
  (forall ref3 : SCRConfReference,
     SCRConfReferenceHashCompareFunc (Some ref1) (Some ref2) = 1 ->
     SCRConfReferenceHashCompareFunc (Some ref2) (Some ref3) = 1 ->
     SCRConfReferenceHashCompareFunc (Some ref1) (Some ref3) = 1) /\
  (SCRConfReferenceHashCompareFunc (Some ref1) (Some ref2) = 1 ->
   SCRConfReferenceHashCompareFunc (Some ref1) (Some ref1) = 1 /\
   SCRConfReferenceHashCompareFunc (Some ref2) (Some ref2) = 1) /\
  (forall (name : cstring) (u : option cstring) (h : heap_t),
     SCRConfReferenceHashCompareFunc
       (allocated (SCRConfAllocSCRConfReference (Some name) u h))
       (allocated (SCRConfAllocSCRConfReference (Some name) u h)) = 1) /\
  (forall u : option cstring,
     SCRConfReferenceHashCompareFunc (Some (mkRef (system ref1) u)) (Some ref2)
     = SCRConfReferenceHashCompareFunc (Some ref1) (Some ref2)) /\
  (forall array_size : Z,
     SCRConfReferenceHashCompareFunc (Some ref1) (Some ref2) = 1 ->
     SCRConfReferenceHashFunc array_size ref1
     = SCRConfReferenceHashFunc array_size ref2).
Proof.
  split; [reflexivity|]. split; [reflexivity|].
  split.
  { destruct (compare_zero_or_one (Some ref1) (Some ref2)) as [H0 | H1],
             (compare_zero_or_one (Some ref2) (Some ref1)) as [H0' | H1'];
      try congruence.
    - apply compare_exact in H1'. symmetry in H1'. apply compare_exact in H1'.
      congruence.
    - apply compare_exact in H1. symmetry in H1. apply compare_exact in H1.
      congruence. }
  split.
  { intros ref3 H12 H23. apply compare_exact in H12, H23. apply compare_exact.
    congruence. }
  split.
  { intros _. split; now apply compare_exact. }
  split.
  { intros name u h. unfold allocated. simpl. rewrite lookup_insert_eq.
    now apply compare_exact. }
  split; [reflexivity|].
  intros n H. apply compare_exact in H. unfold SCRConfReferenceHashFunc.
  now rewrite H.
Qed.

Lemma compare_agrees_with_hash_witness :
  SCRConfReferenceHashFunc 128 (mkRef (str "cve") None)
  = SCRConfReferenceHashFunc 128 (mkRef (str "cve") (Some (str "http://cve.mitre.org/"))).
Proof.
  apply (proj2 (proj2 (proj2 (proj2 (proj2 (proj2 (proj2
           (compare_agrees_with_hash (mkRef (str "cve") None)
              (mkRef (str "cve") (Some (str "http://cve.mitre.org/"))))))))))).
  reflexivity.
Defined.

(** ** Adding a reference *)

Lemma in_bucket_add (t : HashTable) (h : heap_t) (d : loc) (r : Z)
    (ht' : option HashTable) :
  HashTableAdd (Some t) h d = (r, ht') ->
  exists t',
    ht' = Some t' /\
    (forall i p, in_bucket t i p -> in_bucket t' i p) /\
    count t <= count t' <= count t + 1.
Proof.
  unfold HashTableAdd. destruct (h !! d) as [ref|].
  2:{ intros [= _ <-]. exists t. repeat split; auto; lia. }
  destruct (array_size t <=? SCRConfReferenceHashFunc (array_size t) ref).
  { intros [= _ <-]. exists t. repeat split; auto; lia. }
  destruct (array t !! Z.to_nat (SCRConfReferenceHashFunc (array_size t) ref))
    as [chain|] eqn:Hchain.
  2:{ intros [= _ <-]. exists t. repeat split; auto; lia. }
  intros [= _ <-]. eexists. split; [reflexivity|]. split; [|simpl; lia].
  intros i p Hp. apply (in_bucket_insert t _ _ _ _ _ Hchain). now right.
Qed.

(** What a call of [SCRConfAddReference] does to the state. *)
Lemma add_reference_effect (rawstr : cstring) (st : state) :
  exists r st',
    SCRConfAddReference rawstr st = Returns (r, st') /\
    (r = 0 \/ r = -1) /\
    (r = 0 <-> exists re ov, regex st = Some re /\ pcre_exec re rawstr = Some ov) /\
    (r = -1 -> st' = st) /\
    fd st' = fd st /\ regex st' = regex st /\
    (forall p ref, heap st !! p = Some ref -> heap st' !! p = Some ref) /\
    (forall p ref, stored st p ref -> stored st' p ref) /\
    match table_count st, table_count st' with
    | Some c, Some c' => c <= c' <= c + 1
    | None, None => True
    | _, _ => False
    end.
Proof.
  unfold SCRConfAddReference.
  destruct (regex st) as [re|] eqn:Hre.
  2:{ exists (-1), st. split; [reflexivity|]. split; [now right|].
      split; [split; [discriminate | intros (? & ? & ? & _); discriminate]|].
      repeat split; auto. unfold table_count. destruct (reference_conf_ht st); lia. }
  destruct (pcre_exec re rawstr) as [ov|] eqn:Hexec.
  2:{ exists (-1), st. split; [reflexivity|]. split; [now right|].
      split; [split; [discriminate | intros (? & ? & [= <-] & ?); congruence]|].
      repeat split; auto. unfold table_count. destruct (reference_conf_ht st); lia. }
  simpl.
  set (d := SCMalloc (heap st)).
  set (h := <[d := _]> (heap st)).
  assert (Hfresh : heap st !! d = None) by apply SCMalloc_fresh.
  assert (Hold : forall p ref, heap st !! p = Some ref -> h !! p = Some ref).
  { intros p ref Hp. unfold h. rewrite lookup_insert_ne; [exact Hp | congruence]. }
  assert (Hzero : 0 = 0 <-> exists re' ov', Some re = Some re' /\ pcre_exec re' rawstr = Some ov')
    by (split; [intros _; now exists re, ov | reflexivity]).
  destruct (HashTableLookup (reference_conf_ht st) h d) as [q|].
  - exists 0, st. unfold h. rewrite delete_insert_id by exact Hfresh.
    rewrite set_heap_same. split; [reflexivity|]. split; [now left|].
    split; [exact Hzero|]. split; [discriminate|].
    repeat split; auto. unfold table_count. destruct (reference_conf_ht st); lia.
  - destruct (HashTableAdd (reference_conf_ht st) h d) as [r ht'] eqn:Hadd.
    eexists. eexists. split; [reflexivity|]. split; [now left|].
    split; [exact Hzero|]. split; [discriminate|].
    split; [reflexivity|]. split; [exact Hre|]. split; [exact Hold|].
    destruct (reference_conf_ht st) as [t|] eqn:Ht.
    + apply in_bucket_add in Hadd. destruct Hadd as (t' & -> & Hbuckets & Hcount).
      split.
      * intros p ref (t0 & i & Ht0 & Hin & Hp). rewrite Ht in Ht0. injection Ht0 as <-.
        exists t', i. split; [reflexivity|]. split; [now apply Hbuckets|].
        simpl. now apply Hold.
      * unfold table_count. rewrite Ht. simpl. exact Hcount.
    + simpl in Hadd. injection Hadd as _ <-. split.
      * intros p ref (t0 & i & Ht0 & _). rewrite Ht in Ht0. discriminate.
      * unfold table_count. rewrite Ht. simpl. exact I.
Qed.

(** X5. Whenever [SCRConfAddReference] returns, allocation being taken
    to succeed, it returns 0 or -1, and 0 only when the pattern has
    matched the line; when it returns -1 it has changed nothing.  It has
    not touched [fd] or [regex], has not changed or freed an object that
    was on the heap, has not taken an entry out of the table, and has
    raised [count] by one at most. *)
Theorem add_reference_only_adds (rawstr : cstring) (st : state)
    (r : Z) (st' : state) :
  SCRConfAddReference rawstr st = Returns (r, st') ->
  (r = 0 \/ r = -1) /\
  (r = 0 -> exists re ov, regex st = Some re /\ pcre_exec re rawstr = Some ov) /\
  (r = -1 -> st' = st) /\
  fd st' = fd st /\ regex st' = regex st /\
  (forall p ref, heap st !! p = Some ref -> heap st' !! p = Some ref) /\
  (forall p ref, stored st p ref -> stored st' p ref) /\
  match table_count st, table_count st' with
  | Some c, Some c' => c <= c' <= c + 1
  | None, None => True
  | _, _ => False
  end.
Proof.
  intros Hadd.
  destruct (add_reference_effect rawstr st)
    as (r0 & st0 & Heq & Hr & Hzero & Hminus & Hfd & Hre & Hheap & Hst & Hcount).
  rewrite Hadd in Heq. injection Heq as <- <-.
  split; [exact Hr|]. split; [apply Hzero|]. split; [exact Hminus|].
  split; [exact Hfd|]. split; [exact Hre|]. split; [exact Hheap|].
  split; [exact Hst | exact Hcount].
Qed.

Lemma add_reference_only_adds_witness :
  (0 = 0 \/ 0 = -1) /\
  (0 = 0 ->
   exists re ov,
     regex (mkState ∅ (Some (HashTableInit 128)) None (Some (SC_RCONF_REGEX true)))
     = Some re /\
     pcre_exec re (str "config reference: one http://www.one.com") = Some ov) /\
  (0 = -1 ->
   set_regex
     (store_after true (stream_of [str "config reference: one http://www.one.com"]))
     (Some (SC_RCONF_REGEX true))
   = mkState ∅ (Some (HashTableInit 128)) None (Some (SC_RCONF_REGEX true))) /\
  fd (set_regex
        (store_after true (stream_of [str "config reference: one http://www.one.com"]))
        (Some (SC_RCONF_REGEX true)))
  = fd (mkState ∅ (Some (HashTableInit 128)) None (Some (SC_RCONF_REGEX true))) /\
  regex (set_regex
           (store_after true
              (stream_of [str "config reference: one http://www.one.com"]))
           (Some (SC_RCONF_REGEX true)))
  = regex (mkState ∅ (Some (HashTableInit 128)) None (Some (SC_RCONF_REGEX true))) /\
  (forall p ref,
     heap (mkState ∅ (Some (HashTableInit 128)) None (Some (SC_RCONF_REGEX true)))
       !! p = Some ref ->
     heap (set_regex
             (store_after true
                (stream_of [str "config reference: one http://www.one.com"]))
             (Some (SC_RCONF_REGEX true))) !! p = Some ref) /\
  (forall p ref,
     stored (mkState ∅ (Some (HashTableInit 128)) None (Some (SC_RCONF_REGEX true)))
       p ref ->
     stored (set_regex
               (store_after true
                  (stream_of [str "config reference: one http://www.one.com"]))
               (Some (SC_RCONF_REGEX true))) p ref) /\
  match
    table_count
      (mkState ∅ (Some (HashTableInit 128)) None (Some (SC_RCONF_REGEX true))),
    table_count
      (set_regex
         (store_after true (stream_of [str "config reference: one http://www.one.com"]))
         (Some (SC_RCONF_REGEX true)))
  with
  | Some c, Some c' => c <= c' <= c + 1
  | None, None => True
  | _, _ => False
  end.
Proof.
  apply (add_reference_only_adds
           (str "config reference: one http://www.one.com")
           (mkState ∅ (Some (HashTableInit 128)) None (Some (SC_RCONF_REGEX true)))
           0
           (set_regex
              (store_after true
                 (stream_of [str "config reference: one http://www.one.com"]))
              (Some (SC_RCONF_REGEX true)))).
  vm_compute. reflexivity.
Defined.

(** ** Initialisation *)

(** X6. [SCRConfInitContextAndLocalResources] allocates no entry.  It
    returns 0 exactly when the table, the pattern and a stream are all
    there, the stream being the preset [fd] when there is one and the
    opened file otherwise; the context then has an empty table of 128
    buckets.  In every other case it returns -1 and leaves no table, no
    open stream and no pattern behind. *)
Theorem init_all_or_nothing (env : environment) (st : state) :
  heap (snd (SCRConfInitContextAndLocalResources env st)) = heap st /\
  ((fst (SCRConfInitContextAndLocalResources env st) = 0 /\
    env_ok env /\
    reference_conf_ht (snd (SCRConfInitContextAndLocalResources env st))
      = Some (HashTableInit 128) /\
    table_count (snd (SCRConfInitContextAndLocalResources env st)) = Some 0 /\
    is_Some (source_stream env st) /\
    fd (snd (SCRConfInitContextAndLocalResources env st)) = source_stream env st /\
    regex (snd (SCRConfInitContextAndLocalResources env st))
      = Some (SC_RCONF_REGEX (pcre_vt env)))
   \/
   (fst (SCRConfInitContextAndLocalResources env st) = -1 /\
    ~ (env_ok env /\ is_Some (source_stream env st)) /\
    reference_conf_ht (snd (SCRConfInitContextAndLocalResources env st)) = None /\
    fd (snd (SCRConfInitContextAndLocalResources env st)) = None /\
    regex (snd (SCRConfInitContextAndLocalResources env st)) = None)).
Proof.
  unfold SCRConfInitContextAndLocalResources, init_error, env_ok, source_stream.
  destruct env as [[] [file|] [] [] vt], st as [h t [f|] r]; simpl;
    (split; [reflexivity|]);
    first [ left; repeat split; eauto; fail
          | right; repeat split; auto;
            intros [(? & ? & ?) Hs]; try discriminate;
            destruct Hs as [? ?]; discriminate ].
Qed.

(** ** What a load leaves on the heap *)

Section LoopInvariant.
Variable P : state -> Prop.
Hypothesis P_fd : forall st f, P st -> P (set_fd st f).
Hypothesis P_line : forall line st st', P st -> parse_line line st = Returns st' -> P st'.

Lemma parse_loop_keeps (fuel : nat) :
  forall st st', P st -> parse_loop fuel st = Returns st' -> P st'.
Proof.
  induction fuel as [|fuel IH]; intros st st' HP; simpl;
    destruct (fd st) as [s|]; try discriminate;
    destruct (fgets 1024 s) as [[line rest]|]; try discriminate;
    try (intros [= <-]; exact HP).
  destruct (parse_line line (set_fd st (Some rest))) as [st1| |] eqn:Hline;
    simpl; try discriminate.
  apply IH. eapply P_line; [|exact Hline]. now apply P_fd.
Qed.
End LoopInvariant.

Lemma owns_add_reference (h0 : heap_t) (rawstr : cstring) (st : state)
    (r : Z) (st' : state) :
  owns h0 st -> SCRConfAddReference rawstr st = Returns (r, st') -> owns h0 st'.
Proof.
  intros Hown. unfold SCRConfAddReference.
  destruct (regex st) as [re|]; [|now intros [= _ <-]].
  destruct (pcre_exec re rawstr) as [ov|]; [|now intros [= _ <-]].
  simpl. set (d := SCMalloc (heap st)). set (h := <[d := _]> (heap st)).
  assert (Hfresh : heap st !! d = None) by apply SCMalloc_fresh.
  destruct (HashTableLookup (reference_conf_ht st) h d) as [q|].
  { unfold h. rewrite delete_insert_id by exact Hfresh. rewrite set_heap_same.
    now intros [= _ <-]. }
  destruct Hown as (t & Ht & Hsize & Hlen & Hold & Hin & Hall).
  unfold HashTableAdd. rewrite Ht. unfold h at 1. rewrite lookup_insert_eq, Hsize.
  match goal with
  | |- context [SCRConfReferenceHashFunc 128 ?x] =>
      pose proof (hash_func_range x) as Hr; set (ref := x) in *
  end.
  destruct (128 <=? SCRConfReferenceHashFunc 128 ref) eqn:E;
    [apply Z.leb_le in E; lia|]. clear E.
  destruct (array t !! Z.to_nat (SCRConfReferenceHashFunc 128 ref))
    as [chain|] eqn:Hchain.
  2:{ apply lookup_ge_None in Hchain. lia. }
  intros [= _ <-]. eexists. split; [reflexivity|]. simpl.
  split; [reflexivity|]. split; [now rewrite length_insert|].
  assert (Hd0 : h0 !! d = None).
  { destruct (h0 !! d) as [x|] eqn:E; [|reflexivity].
    apply Hold in E. congruence. }
  split; [|split].
  - intros p x Hp. unfold h. rewrite lookup_insert_ne; [now apply Hold|].
    intros <-. congruence.
  - intros i p Hp. apply (in_bucket_insert t _ _ _ _ _ Hchain) in Hp.
    destruct Hp as [[_ ->] | Hp].
    + split; [exact Hd0|]. unfold h. rewrite lookup_insert_eq. eauto.
    + destruct (Hin i p Hp) as [H0 Hlive]. split; [exact H0|].
      unfold h. rewrite lookup_insert_ne; [exact Hlive|].
      intros <-. rewrite Hfresh in Hlive. now destruct Hlive.
  - intros p Hp. destruct (decide (p = d)) as [-> | Hne].
    + right. eexists. apply (in_bucket_insert t _ _ _ _ _ Hchain). left. eauto.
    + unfold h in Hp. rewrite lookup_insert_ne in Hp by congruence.
      destruct (Hall p Hp) as [H0 | [i Hi]]; [now left|].
      right. exists i. apply (in_bucket_insert t _ _ _ _ _ Hchain). now right.
Qed.

Lemma owns_parse_line (h0 : heap_t) (line : list ascii) (st st' : state) :
  owns h0 st -> parse_line line st = Returns st' -> owns h0 st'.
Proof.
  intros Hown. unfold parse_line.
  destruct (SCRConfIsLineBlankOrComment (c_str line) =? 1); [now intros [= <-]|].
  destruct (SCRConfAddReference (c_str line) st) as [[r st1]| |] eqn:Hadd;
    simpl; try discriminate.
  intros [= <-]. eapply owns_add_reference; eauto.
Qed.

Lemma owns_init (st : state) (f : option (list ascii)) (re : option pcre) :
  owns (heap st) (mkState (heap st) (Some (HashTableInit 128)) f re).
Proof.
  assert (Hempty : forall i p, ~ in_bucket (HashTableInit 128) i p).
  { intros i p (chain & Hc & Hp). unfold HashTableInit in Hc. cbn [array] in Hc.
    apply lookup_replicate in Hc. destruct Hc as [-> _].
    now apply elem_of_nil in Hp. }
  exists (HashTableInit 128). split; [reflexivity|]. split; [reflexivity|].
  split; [reflexivity|]. split; [auto|]. split.
  - intros i p Hp. now apply Hempty in Hp.
  - intros p Hp. now left.
Qed.

Lemma load_owns (env : environment) (st : state) (r : Z) (st' : state) :
  SCRConfLoadReferenceConfigFile env st = Returns (r, st') ->
  owns (heap st) st' /\ fd st' = None /\ regex st' = None.
Proof.
  unfold SCRConfLoadReferenceConfigFile.
  destruct (SCRConfInitContextAndLocalResources env st) as [r0 st0] eqn:Hinit.
  destruct (r0 =? -1) eqn:Hr; [discriminate|].
  destruct (SCRConfParseFile st0) as [st1| |] eqn:Hparse; simpl; try discriminate.
  intros [= _ <-]. split; [|split; reflexivity].
  assert (Hown0 : owns (heap st) st0).
  { unfold SCRConfInitContextAndLocalResources, init_error in Hinit.
    destruct env as [[] fo [] [] vt], st as [h t [f|] re], fo;
      simpl in Hinit; injection Hinit as <- <-; try discriminate Hr;
      apply (owns_init (mkState h t _ re)). }
  change (owns (heap st) (set_regex (set_fd st1 None) None)).
  assert (Hown1 : owns (heap st) st1).
  { eapply (parse_loop_keeps (owns (heap st))); [| |exact Hown0|exact Hparse].
    - intros s f H. exact H.
    - intros line s s' H. now apply owns_parse_line. }
  exact Hown1.
Qed.

(** X7. When [SCRConfLoadReferenceConfigFile] returns, whatever the
    stream held, the stream is closed and the pattern released, the
    context has a table, every object that was on the heap before the
    call is still there unchanged, and every other object on the heap is
    an entry that the table holds: what the load allocates it either
    stores or frees. *)
Theorem load_leaves_only_stored_entries (env : environment) (st : state)
    (r : Z) (st' : state) :
  SCRConfLoadReferenceConfigFile env st = Returns (r, st') ->
  fd st' = None /\ regex st' = None /\ is_Some (reference_conf_ht st') /\
  (forall p ref, heap st !! p = Some ref -> heap st' !! p = Some ref) /\
  (forall p ref, stored st' p ref -> heap st !! p = None) /\
  (forall p ref, heap st' !! p = Some ref ->
     heap st !! p = Some ref \/ stored st' p ref).
Proof.
  intros Hload. apply load_owns in Hload.
  destruct Hload as [(t & Ht & _ & _ & Hold & Hin & Hall) [Hfd Hre]].
  split; [exact Hfd|]. split; [exact Hre|]. split; [rewrite Ht; eauto|].
  split; [exact Hold|]. split.
  - intros p ref (t0 & i & Ht0 & Hp & _). rewrite Ht in Ht0. injection Ht0 as <-.
    now destruct (Hin i p Hp).
  - intros p ref Hp. destruct (Hall p) as [[x Hx] | [i Hi]]; [eauto| |].
    + left. apply Hold in Hx as Hx'. congruence.
    + right. exists t, i. auto.
Qed.

Lemma load_leaves_only_stored_entries_witness :
  fd (store_after true FD01) = None /\ regex (store_after true FD01) = None /\
  is_Some (reference_conf_ht (store_after true FD01)) /\
  (forall p ref,
     heap (initial_state (Some FD01)) !! p = Some ref ->
     heap (store_after true FD01) !! p = Some ref) /\
  (forall p ref,
     stored (store_after true FD01) p ref ->
     heap (initial_state (Some FD01)) !! p = None) /\
  (forall p ref,
     heap (store_after true FD01) !! p = Some ref ->
     heap (initial_state (Some FD01)) !! p = Some ref \/
     stored (store_after true FD01) p ref).
Proof.
  apply (load_leaves_only_stored_entries (default_env true)
           (initial_state (Some FD01)) 0 (store_after true FD01)).
  vm_compute. reflexivity.
Defined.

(** ** Tear-down *)

Lemma free_all_lookup (l : list loc) (h : heap_t) (q : loc) :
  fold_left (fun h' p => SCRConfReferenceHashFree (Some p) h') l h !! q
  = if decide (q ∈ l) then None else h !! q.
Proof.
  revert h. induction l as [|p l IH]; intros h; simpl.
  - destruct (decide (q ∈ [])) as [H|_]; [now apply elem_of_nil in H | reflexivity].
  - rewrite IH. destruct (decide (q ∈ l)) as [Hl|Hl].
    + destruct (decide (q ∈ p :: l)) as [_|H]; [reflexivity|].
      exfalso. apply H, elem_of_cons. now right.
    + destruct (decide (q = p)) as [-> | Hne].
      * rewrite lookup_delete_eq.
        destruct (decide (p ∈ p :: l)) as [_|H]; [reflexivity|].
        exfalso. apply H, elem_of_cons. now left.
      * rewrite lookup_delete_ne by congruence.
        destruct (decide (q ∈ p :: l)) as [H|_]; [|reflexivity].
        apply elem_of_cons in H. destruct H; contradiction.
Qed.

Lemma in_table_iff (t : HashTable) (p : loc) :
  p ∈ concat (array t) <-> exists i, in_bucket t i p.
Proof.
  rewrite list_elem_of_In, in_concat. split.
  - intros (chain & Hc & Hp). apply list_elem_of_In, list_elem_of_lookup in Hc.
    destruct Hc as [i Hi]. exists i, chain. split; [exact Hi|].
    now apply list_elem_of_In.
  - intros (i & chain & Hi & Hp). exists chain. split.
    + apply list_elem_of_In, list_elem_of_lookup. eauto.
    + now apply list_elem_of_In.
Qed.

Lemma get_reference_no_table (q : cstring) (st : state) :
  reference_conf_ht st = None ->
  SCRConfGetReference (Some q) st = Returns (None, st).
Proof.
  intros Ht. unfold SCRConfGetReference. simpl. rewrite Ht. simpl.
  rewrite delete_insert_id by apply SCMalloc_fresh. now rewrite set_heap_same.
Qed.

(** X8. [SCRConfDeInitContext] after a load that has returned frees every
    entry of the table and nothing else: the heap is again what it was
    before the load.  The context is left without a table, every lookup
    in it returns NULL, and a second call changes nothing. *)
Theorem load_then_deinit_restores_heap (env : environment) (st : state)
    (r : Z) (st' : state) :
  SCRConfLoadReferenceConfigFile env st = Returns (r, st') ->
  heap (SCRConfDeInitContext st') = heap st /\
  reference_conf_ht (SCRConfDeInitContext st') = None /\
  (forall q : cstring,
     SCRConfGetReference (Some q) (SCRConfDeInitContext st')
     = Returns (None, SCRConfDeInitContext st')) /\
  SCRConfDeInitContext (SCRConfDeInitContext st') = SCRConfDeInitContext st'.
Proof.
  intros Hload. apply load_owns in Hload.
  destruct Hload as [(t & Ht & _ & _ & Hold & Hin & Hall) _].
  unfold SCRConfDeInitContext at 1 2 3 4. rewrite Ht.
  assert (Hnone : reference_conf_ht
                    (set_ht (set_heap st' (HashTableFree t (heap st'))) None) = None)
    by reflexivity.
  split; [|split; [exact Hnone|split]].
  - simpl. apply map_eq. intros q. unfold HashTableFree.
    rewrite free_all_lookup. destruct (decide (q ∈ concat (array t))) as [Hq|Hq].
    + apply in_table_iff in Hq. destruct Hq as [i Hi].
      symmetry. now destruct (Hin i q Hi).
    + destruct (heap st' !! q) as [x|] eqn:Hx.
      * destruct (Hall q) as [[y Hy] | Hi]; [eauto| |].
        -- apply Hold in Hy as Hy'. congruence.
        -- exfalso. apply Hq, in_table_iff, Hi.
      * destruct (heap st !! q) as [y|] eqn:Hy; [|reflexivity].
        apply Hold in Hy. congruence.
  - intros q. now apply get_reference_no_table.
  - unfold SCRConfDeInitContext. rewrite Ht. reflexivity.
Qed.

Lemma load_then_deinit_restores_heap_witness :
  heap (SCRConfDeInitContext (store_after true FD01))
  = heap (initial_state (Some FD01)).
Proof.
  apply (load_then_deinit_restores_heap (default_env true)
           (initial_state (Some FD01)) 0 (store_after true FD01)).
  vm_compute. reflexivity.
Defined.

(** ** The classifier and the pattern *)

(** X9. The blank-or-comment test never hides a directive: a line it
    answers 1 for is a line the pattern rejects.  One turn of the loop of
    [SCRConfParseFile] therefore leaves the same state as a call of
    [SCRConfAddReference] on the line would, skipped or not. *)
Theorem classifier_hides_no_directive (vt : bool) :
  (forall s : cstring,
     SCRConfIsLineBlankOrComment s = 1 -> match_directive vt s = None) /\
  (forall (line : list ascii) (st : state),
     regex st = Some (SC_RCONF_REGEX vt) ->
     parse_line line st
     = (r <- SCRConfAddReference (c_str line) st ;; Returns (snd r))).
Proof.
  assert (H1 : forall s, SCRConfIsLineBlankOrComment s = 1 ->
                         match_directive vt s = None).
  { intros s Hs. destruct (match_directive vt s) as [[n v]|] eqn:Hm; [|reflexivity].
    apply classifier_on_match in Hm. congruence. }
  split; [exact H1|].
  intros line st Hre. unfold parse_line.
  destruct (SCRConfIsLineBlankOrComment (c_str line) =? 1) eqn:E; [|reflexivity].
  apply Z.eqb_eq, H1 in E. now rewrite (add_reference_no_match vt).
Qed.

Lemma classifier_hides_no_directive_witness :
  match_directive true (str "  # config reference: one http://www.one.com") = None.
Proof.
  apply (proj1 (classifier_hides_no_directive true)). reflexivity.
Defined.

(** ** What the table holds after a load *)

(** X10. When the pattern rejects every line of the source, an empty
    source included, the load returns 0 with a table whose [count] is 0
    and in which every lookup returns NULL. *)
Theorem load_of_invalid_lines_is_empty (env : environment) (st : state)
    (lines : list (list ascii)) :
  env_ok env -> Forall line_ok lines ->
  Forall (fun l => match_directive (pcre_vt env) (c_str (l ++ [LF])) = None) lines ->
  source_stream env st = Some (stream_of lines) ->
  exists st',
    SCRConfLoadReferenceConfigFile env st = Returns (0, st') /\
    table_count st' = Some 0 /\
    forall q : cstring, lookup_fails st' q.
Proof.
  intros Henv Hok Hbad Hsrc.
  destruct (load_represented env st lines Henv Hok Hsrc) as (st' & Hload & Hrep).
  assert (Hempty : load_model (pcre_vt env) (buffers_of lines) = ∅).
  { apply map_empty. intros k. apply model_none.
    unfold key_absent, buffers_of. apply Forall_map.
    eapply Forall_impl; [exact Hbad|]. intros l Hl k' v' Hd.
    unfold directive_of in Hd. simpl in Hl. now rewrite Hl in Hd. }
  rewrite Hempty in Hrep. exists st'. split; [exact Hload|]. split.
  - now rewrite (count_represented _ _ Hrep), map_size_empty.
  - intros q. apply (lookup_fails_iff _ _ _ Hrep). apply lookup_empty.
Qed.

Lemma load_of_invalid_lines_is_empty_witness :
  exists st',
    SCRConfLoadReferenceConfigFile (default_env true)
      (initial_state
         (Some (stream_of [str "config reference one http://www.one.com";
                           str "config reference: four"])))
    = Returns (0, st') /\
    table_count st' = Some 0 /\
    forall q : cstring, lookup_fails st' q.
Proof.
  apply (load_of_invalid_lines_is_empty (default_env true)
           (initial_state
              (Some (stream_of [str "config reference one http://www.one.com";
                                str "config reference: four"])))
           [str "config reference one http://www.one.com";
            str "config reference: four"]).
  - repeat split.
  - lines_ok.
  - constructor; [vm_compute; reflexivity|].
    constructor; [vm_compute; reflexivity | constructor].
  - reflexivity.
Defined.

(** X11. Take a source whose lines are at most 1023 bytes long with
    their newline.  After its load, the lookup of a name returns NULL
    exactly when no line of the source defines that name up to ASCII
    case; otherwise it returns an entry of the table whose key is the
    lowercased name and whose url is the value that some line of the
    source gives to it. *)
Theorem lookup_finds_what_lines_define (env : environment) (st : state)
    (lines : list (list ascii)) :
  env_ok env -> Forall line_ok lines ->
  source_stream env st = Some (stream_of lines) ->
  exists st',
    SCRConfLoadReferenceConfigFile env st = Returns (0, st') /\
    forall q : cstring,
      (lookup_fails st' q <->
       key_absent (pcre_vt env) (SCRConfStringToLowercase q) (buffers_of lines)) /\
      (~ lookup_fails st' q ->
       exists p v b,
         SCRConfGetReference (Some q) st' = Returns (Some p, st') /\
         stored st' p (mkRef (SCRConfStringToLowercase q) (Some v)) /\
         b ∈ buffers_of lines /\
         directive_of (pcre_vt env) b = Some (SCRConfStringToLowercase q, v)).
Proof.
  intros Henv Hok Hsrc.
  destruct (load_represented env st lines Henv Hok Hsrc) as (st' & Hload & Hrep).
  exists st'. split; [exact Hload|]. intros q. split.
  - rewrite (lookup_fails_iff _ _ _ Hrep). apply model_none.
  - intros Hnot.
    destruct (load_model (pcre_vt env) (buffers_of lines)
                !! SCRConfStringToLowercase q) as [v|] eqn:Hm.
    + destruct (lookup_gives_represented st' _ q v Hrep Hm) as (p & Hget & Hst).
      destruct (model_some _ _ _ _ Hm) as (b & Hb & Hd).
      exists p, v, b. auto.
    + exfalso. apply Hnot. now apply (lookup_fails_iff _ _ _ Hrep).
Qed.

Lemma lookup_finds_what_lines_define_witness :
  exists st',
    SCRConfLoadReferenceConfigFile (default_env true)
      (initial_state (Some (stream_of [str "config reference: one http://www.one.com"])))
    = Returns (0, st') /\
    forall q : cstring,
      (lookup_fails st' q <->
       key_absent (pcre_vt (default_env true)) (SCRConfStringToLowercase q)
         (buffers_of [str "config reference: one http://www.one.com"])) /\
      (~ lookup_fails st' q ->
       exists p v b,
         SCRConfGetReference (Some q) st' = Returns (Some p, st') /\
         stored st' p (mkRef (SCRConfStringToLowercase q) (Some v)) /\
         b ∈ buffers_of [str "config reference: one http://www.one.com"] /\
         directive_of (pcre_vt (default_env true)) b
         = Some (SCRConfStringToLowercase q, v)).
Proof.
  apply (lookup_finds_what_lines_define (default_env true)
           (initial_state
              (Some (stream_of [str "config reference: one http://www.one.com"])))
           [str "config reference: one http://www.one.com"]).
  - repeat split.
  - lines_ok.
  - reflexivity.
Defined.

(** X12. Take a source whose lines are at most 1023 bytes long with
    their newline.  After its load, [count] is the number of distinct
    keys that the lines of the source define, a key being the lowercased
    name of a line that the pattern matches; it is at most the number of
    lines. *)
Theorem count_is_number_of_keys (env : environment) (st : state)
    (lines : list (list ascii)) :
  env_ok env -> Forall line_ok lines ->
  source_stream env st = Some (stream_of lines) ->
  exists (st' : state) (keys : list (list ascii)),
    SCRConfLoadReferenceConfigFile env st = Returns (0, st') /\
    NoDup keys /\
    (forall k, k ∈ keys <->
       exists b v, b ∈ buffers_of lines /\ directive_of (pcre_vt env) b = Some (k, v)) /\
    table_count st' = Some (Z.of_nat (length keys)) /\
    (length keys <= length lines)%nat.
Proof.
  intros Henv Hok Hsrc.
  destruct (load_represented env st lines Henv Hok Hsrc) as (st' & Hload & Hrep).
  set (m := load_model (pcre_vt env) (buffers_of lines)) in *.
  assert (Hlen : length ((map_to_list m).*1) = size m)
    by now rewrite length_fmap, length_map_to_list.
  exists st', ((map_to_list m).*1). split; [exact Hload|].
  split; [apply NoDup_fst_map_to_list|]. split; [|split].
  - intros k. rewrite list_elem_of_fmap. split.
    + intros ([k' v] & -> & Hkv). apply elem_of_map_to_list in Hkv. simpl.
      destruct (model_some _ _ _ _ Hkv) as (b & Hb & Hd). eauto.
    + intros (b & v & Hb & Hd).
      destruct (m !! k) as [v0|] eqn:Hm.
      * exists (k, v0). split; [reflexivity | now apply elem_of_map_to_list].
      * apply model_none in Hm. unfold key_absent in Hm.
        rewrite Forall_forall in Hm. now contradiction (Hm b Hb k v Hd).
  - now rewrite (count_represented _ _ Hrep), Hlen.
  - rewrite Hlen. pose proof (model_size (pcre_vt env) (buffers_of lines) ∅) as Hs.
    rewrite map_size_empty in Hs. unfold buffers_of in Hs.
    rewrite List.length_map in Hs. exact Hs.
Qed.

Lemma count_is_number_of_keys_witness :
  exists (st' : state) (keys : list (list ascii)),
    SCRConfLoadReferenceConfigFile (default_env true) (initial_state (Some FD01))
    = Returns (0, st') /\
    NoDup keys /\
    (forall k, k ∈ keys <->
       exists b v,
         b ∈ buffers_of
               (List.map str
                  ["config reference: one http://www.one.com";
                   "config reference: two http://www.two.com";
                   "config reference: three http://www.three.com";
                   "config reference: one http://www.one.com";
                   "config reference: three http://www.three.com"]%string) /\
         directive_of (pcre_vt (default_env true)) b = Some (k, v)) /\
    table_count st' = Some (Z.of_nat (length keys)) /\
    (length keys
     <= length (List.map str
                  ["config reference: one http://www.one.com";
                   "config reference: two http://www.two.com";
                   "config reference: three http://www.three.com";
                   "config reference: one http://www.one.com";
                   "config reference: three http://www.three.com"]%string))%nat.
Proof.
  apply (count_is_number_of_keys (default_env true) (initial_state (Some FD01))
           (List.map str
              ["config reference: one http://www.one.com";
               "config reference: two http://www.two.com";
               "config reference: three http://www.three.com";
               "config reference: one http://www.one.com";
               "config reference: three http://www.three.com"]%string)).
  - repeat split.
  - lines_ok.
  - reflexivity.
Defined.

Lemma pcre_star_finds {R : Type} (p : ascii -> bool)
    (k : cstring -> nat -> option R) (l rest : cstring) (pos : nat) :
  holds p l -> is_Some (k rest (pos + length l)%nat) ->
  is_Some (pcre_star p k (l ++ rest) pos).
Proof.
  intros Hl. revert pos. induction Hl as [|c l Hc Hl IH]; intros pos Hk; simpl in *.
  - rewrite Nat.add_0_r in Hk. destruct rest as [|c rest]; simpl; [exact Hk|].
    destruct (p c); [|exact Hk].
    destruct (pcre_star p k rest (S pos)); [eauto | exact Hk].
  - rewrite Hc. destruct (IH (S pos)) as [r Hr].
    + now rewrite Nat.add_succ_l, <- Nat.add_succ_r.
    + rewrite Hr. eauto.
Qed.

Lemma match_star_finds (p : ascii -> bool) (re : pcre) (l rest : cstring)
    (pos : nat) (ov : ovector) :
  holds p l -> is_Some (pcre_match re rest (pos + length l) ov) ->
  is_Some (pcre_match (NStar p :: re) (l ++ rest) pos ov).
Proof.
  intros Hl Hk. simpl.
  now apply (pcre_star_finds p (fun s' pos' => pcre_match re s' pos' ov)).
Qed.

Lemma match_plus_finds (p : ascii -> bool) (re : pcre) (l rest : cstring)
    (pos : nat) (ov : ovector) :
  l <> [] -> holds p l -> is_Some (pcre_match re rest (pos + length l) ov) ->
  is_Some (pcre_match (NPlus p :: re) (l ++ rest) pos ov).
Proof.
  intros Hne Hl Hk. destruct l as [|c l]; [congruence|].
  inversion Hl as [|? ? Hc Hl']; subst. simpl. rewrite Hc.
  apply (pcre_star_finds p (fun s' pos' => pcre_match re s' pos' ov)); auto.
  now rewrite Nat.add_succ_l, <- Nat.add_succ_r.
Qed.

(** Every string of the grammar is matched, whichever way the greedy
    search has to give characters back. *)
Lemma match_directive_finds (vt : bool) (head name sep value tail : cstring) :
  directive_head vt head -> valid_name name ->
  sep <> [] -> holds (pcre_space vt) sep ->
  value <> [] -> holds pcre_dot value ->
  holds (pcre_space vt) tail ->
  is_Some (match_directive vt (head ++ name ++ sep ++ value ++ tail)).
Proof.
  intros (pre & ws1 & ws2 & ws3 & -> & Hpre & Hws1n & Hws1 & Hws2 & Hws3)
         (a & name' & -> & Ha & Hname') Hsepn Hsep Hvaln Hval Htail.
  unfold match_directive. rewrite exec_directive.
  match goal with
  | |- is_Some (match ?m with _ => _ end) =>
      assert (Hm : is_Some m); [|destruct Hm as [ov ->]; eauto]
  end.
  cbn [SC_RCONF_REGEX tl lit str list_ascii_of_string List.map app].
  right_nest.
  apply match_star_finds; [assumption|]. rewrite !match_lit.
  apply match_plus_finds; [assumption|assumption|]. rewrite !match_lit.
  apply match_star_finds; [assumption|]. rewrite !match_lit.
  apply match_star_finds; [assumption|].
  rewrite match_open. rewrite match_set by assumption.
  apply match_star_finds; [assumption|]. rewrite match_close.
  apply match_plus_finds; [assumption|assumption|]. rewrite match_open.
  apply match_plus_finds; [assumption|assumption|]. rewrite match_close.
  rewrite <- (app_nil_r tail).
  apply match_star_finds; [assumption|]. rewrite match_eol_nil. eauto.
Qed.

(** X13. The pattern accepts exactly the strings of the grammar: the
    head of a directive, a name that starts with a letter, whitespace, a
    value of one or more characters other than the newline, and
    whitespace to the end.  The name and the value the matcher extracts
    are those of one such reading of the string. *)
Theorem matcher_accepts_exactly_the_grammar (vt : bool) (s : cstring) :
  (is_Some (match_directive vt s) <->
   exists head name sep value tail,
     s = head ++ name ++ sep ++ value ++ tail /\
     directive_head vt head /\ valid_name name /\
     sep <> [] /\ holds (pcre_space vt) sep /\
     value <> [] /\ holds pcre_dot value /\
     holds (pcre_space vt) tail) /\
  (forall name value,
     match_directive vt s = Some (name, value) ->
     exists head sep tail,
       s = head ++ name ++ sep ++ value ++ tail /\
       directive_head vt head /\ valid_name name /\
       sep <> [] /\ holds (pcre_space vt) sep /\
       value <> [] /\ holds pcre_dot value /\
       holds (pcre_space vt) tail).
Proof.
  split; [split|].
  - intros [[name value] Hm].
    destruct (match_directive_inv vt s name value Hm) as (head & sep & tail & H).
    exists head, name, sep, value, tail. exact H.
  - intros (head & name & sep & value & tail & -> & Hh & Hn & Hsn & Hs & Hvn & Hv & Ht).
    now apply match_directive_finds.
  - intros name value Hm. now apply match_directive_inv.
Qed.

(** X14. Take a source whose lines are at most 1023 bytes long with
    their newline.  Every entry of the table that its load has built
    comes from a line the pattern matches: its key is the lowercased name
    of that line, hence canonical and not empty; its url is the value of
    the line, not NULL, not empty, without a newline; and it sits in the
    bucket of its key.  No two entries have keys that are equal up to
    ASCII case. *)
Theorem entries_are_canonical (env : environment) (st : state)
    (lines : list (list ascii)) :
  env_ok env -> Forall line_ok lines ->
  source_stream env st = Some (stream_of lines) ->
  exists st' t,
    SCRConfLoadReferenceConfigFile env st = Returns (0, st') /\
    reference_conf_ht st' = Some t /\
    (forall p ref,
       stored st' p ref ->
       exists b name value,
         b ∈ buffers_of lines /\
         match_directive (pcre_vt env) (c_str b) = Some (name, value) /\
         valid_name name /\
         system ref = SCRConfStringToLowercase name /\
         url ref = Some value /\ value <> [] /\ no_newline value /\
         SCRConfStringToLowercase (system ref) = system ref /\
         system ref <> [] /\
         in_bucket t (hash_of (system ref)) p) /\
    (forall p q r1 r2,
       stored st' p r1 -> stored st' q r2 ->
       case_insensitively_equal (system r1) (system r2) -> p = q).
Proof.
  intros Henv Hok Hsrc.
  destruct (load_represented env st lines Henv Hok Hsrc) as (st' & Hload & Hrep).
  pose proof Hrep as (t & Ht & _ & _ & _ & Hin & _).
  assert (Hentry : forall p ref,
            stored st' p ref ->
            exists b name value,
              b ∈ buffers_of lines /\
              match_directive (pcre_vt env) (c_str b) = Some (name, value) /\
              valid_name name /\
              system ref = SCRConfStringToLowercase name /\
              url ref = Some value /\ value <> [] /\ no_newline value /\
              SCRConfStringToLowercase (system ref) = system ref /\
              system ref <> [] /\
              in_bucket t (hash_of (system ref)) p).
  { intros p ref (t' & i & Ht' & Hp & Hheap).
    rewrite Ht in Ht'. injection Ht' as <-.
    destruct (Hin i p Hp) as (k & v & Hheap' & Hi & Hm).
    rewrite Hheap in Hheap'. injection Hheap' as ->.
    destruct (model_some _ _ _ _ Hm) as (b & Hb & Hd).
    unfold directive_of in Hd.
    destruct (match_directive (pcre_vt env) (c_str b)) as [[name value]|] eqn:Hmd;
      [|discriminate].
    injection Hd as Hk Hv. subst k v.
    destruct (match_directive_inv _ _ _ _ Hmd)
      as (head & sep & tail & _ & _ & Hname & _ & _ & Hvn & Hval & _).
    exists b, name, value. simpl.
    split; [exact Hb|]. split; [exact Hmd|]. split; [exact Hname|].
    split; [reflexivity|]. split; [reflexivity|]. split; [exact Hvn|].
    split.
    { eapply Forall_impl; [exact Hval|]. intros c Hc. unfold pcre_dot in Hc.
      now apply negb_true_iff in Hc. }
    split; [apply lowercase_idempotent|].
    split.
    { destruct Hname as (a & rest & -> & _). discriminate. }
    now rewrite Hi. }
  exists st', t. split; [exact Hload|]. split; [exact Ht|]. split; [exact Hentry|].
  intros p q r1 r2 H1 H2 Heq.
  apply (stored_unique st' _ p q r1 r2 Hrep H1 H2).
  destruct (Hentry p r1 H1) as (b1 & n1 & v1 & _ & _ & _ & _ & _ & _ & _ & Hc1 & _).
  destruct (Hentry q r2 H2) as (b2 & n2 & v2 & _ & _ & _ & _ & _ & _ & _ & Hc2 & _).
  unfold case_insensitively_equal in Heq. congruence.
Qed.

Lemma entries_are_canonical_witness :
  exists st' t,
    SCRConfLoadReferenceConfigFile (default_env true) (initial_state (Some FD02))
    = Returns (0, st') /\
    reference_conf_ht st' = Some t /\
    (forall p ref,
       stored st' p ref ->
       exists b name value,
         b ∈ buffers_of
               (List.map str
                  ["config reference: one http://www.one.com";
                   "config_ reference: two http://www.two.com";
                   "config reference_: three http://www.three.com";
                   "config reference: four";
                   "config reference five http://www.five.com"]%string) /\
         match_directive (pcre_vt (default_env true)) (c_str b) = Some (name, value) /\
         valid_name name /\
         system ref = SCRConfStringToLowercase name /\
         url ref = Some value /\ value <> [] /\ no_newline value /\
         SCRConfStringToLowercase (system ref) = system ref /\
         system ref <> [] /\
         in_bucket t (hash_of (system ref)) p) /\
    (forall p q r1 r2,
       stored st' p r1 -> stored st' q r2 ->
       case_insensitively_equal (system r1) (system r2) -> p = q).
Proof.
  apply (entries_are_canonical (default_env true) (initial_state (Some FD02))
           (List.map str
              ["config reference: one http://www.one.com";
               "config_ reference: two http://www.two.com";
               "config reference_: three http://www.three.com";
               "config reference: four";
               "config reference five http://www.five.com"]%string)).
  - repeat split.
  - lines_ok.
  - reflexivity.
Defined.

(** X15. For lines that are at most 1023 bytes long with their newline,
    and one white space class of PCRE, what a load builds depends on the
    lines of the source and on nothing else: whatever the context held
    before (a table, heap objects, a compiled pattern), and whether the
    source is the preset stream or the opened file, two loads of the same
    lines answer every lookup alike and count the same number of
    entries. *)
Theorem load_depends_on_lines_only (env1 env2 : environment) (st1 st2 : state)
    (lines : list (list ascii)) :
  env_ok env1 -> env_ok env2 -> pcre_vt env1 = pcre_vt env2 ->
  Forall line_ok lines ->
  source_stream env1 st1 = Some (stream_of lines) ->
  source_stream env2 st2 = Some (stream_of lines) ->
  exists st1' st2',
    SCRConfLoadReferenceConfigFile env1 st1 = Returns (0, st1') /\
    SCRConfLoadReferenceConfigFile env2 st2 = Returns (0, st2') /\
    table_count st1' = table_count st2' /\
    (forall q v, lookup_gives st1' q v <-> lookup_gives st2' q v) /\
    (forall q, lookup_fails st1' q <-> lookup_fails st2' q).
Proof.
  intros Henv1 Henv2 Hvt Hok Hsrc1 Hsrc2.
  destruct (load_represented env1 st1 lines Henv1 Hok Hsrc1) as (st1' & Hl1 & Hr1).
  destruct (load_represented env2 st2 lines Henv2 Hok Hsrc2) as (st2' & Hl2 & Hr2).
  rewrite Hvt in Hr1.
  exists st1', st2'. split; [exact Hl1|]. split; [exact Hl2|]. split; [|split].
  - now rewrite (count_represented _ _ Hr1), (count_represented _ _ Hr2).
  - intros q v.
    now rewrite (lookup_gives_iff _ _ q v Hr1), (lookup_gives_iff _ _ q v Hr2).
  - intros q.
    now rewrite (lookup_fails_iff _ _ q Hr1), (lookup_fails_iff _ _ q Hr2).
Qed.

Lemma load_depends_on_lines_only_witness :
  exists st1' st2',
    SCRConfLoadReferenceConfigFile (default_env true) (initial_state (Some FD01))
    = Returns (0, st1') /\
    SCRConfLoadReferenceConfigFile
      (mkEnv true (Some FD01) true true true) (store_after true FD02)
    = Returns (0, st2') /\
    table_count st1' = table_count st2' /\
    (forall q v, lookup_gives st1' q v <-> lookup_gives st2' q v) /\
    (forall q, lookup_fails st1' q <-> lookup_fails st2' q).
Proof.
  apply (load_depends_on_lines_only (default_env true)
           (mkEnv true (Some FD01) true true true)
           (initial_state (Some FD01)) (store_after true FD02)
           (List.map str
              ["config reference: one http://www.one.com";
               "config reference: two http://www.two.com";
               "config reference: three http://www.three.com";
               "config reference: one http://www.one.com";
               "config reference: three http://www.three.com"]%string)).
  - repeat split.
  - repeat split.
  - reflexivity.
  - lines_ok.
  - reflexivity.
  - vm_compute. reflexivity.
Defined.
